(** * Pallas extensions of the clique engine (consensus/clique/pallas.go)

    A shallow embedding of the super-validator tally, the scheduled
    validator override and the fallback proposer schedule, followed by the
    properties the specification states about them.

    Conventions of the embedding.
    - [uint64] values are numbers of type [N]; every operation that can wrap
      in Go wraps here ([uint64.add], [uint64.sub]), and [%] panics on a zero
      divisor ([uint64.rem]).
    - [int] values are numbers of type [Z], wrapped to 64-bit two's
      complement by [int.wrap]; [/] truncates ([Z.quot]).
    - Go maps are [gmap]s and maps to [struct{}] are [gset]s.  A [range]
      statement over a map visits every entry once, in an order Go leaves
      unspecified: each such statement receives the order it follows as an
      extra argument, and [range_order] says which orders are possible.
    - The receiver [*Snapshot] is mutated in place by the Go code; here a
      method returns the snapshot it leaves behind.
    - A run-time panic is the [Panic] result. *)

From stdpp Require Import gmap sorting list.

Local Open Scope N_scope.

(** ** Results of code that may panic *)

Inductive panic : Set :=
  | DivideByZero
  | IndexOutOfRange
  | NilDereference.

Inductive result (A : Type) : Type :=
  | Ok (a : A)
  | Panic (p : panic).

Arguments Ok {A} a.
Arguments Panic {A} p.

Global Instance result_ret : MRet result := λ A, Ok.

Global Instance result_bind : MBind result := λ A B k r,
  match r with
  | Ok a => k a
  | Panic p => Panic p
  end.

(** ** Machine integers *)

Module uint64.
Definition modulus : N := 2 ^ 64.
Definition wrap (x : N) : N := x mod modulus.
Definition add (a b : N) : N := wrap (a + b).
Definition sub (a b : N) : N := wrap (a + (modulus - wrap b)).
(** [a % b]: Go panics with "integer divide by zero" when [b] is 0. *)
Definition rem (a b : N) : result N :=
  if b =? 0 then Panic DivideByZero else Ok (a mod b).
(** The conversion [uint64(z)] of a signed 64-bit value [z]: the same
    bits, so a negative [z] becomes [z + 2^64]. *)
Definition of_int (z : Z) : N :=
  if (0 <=? z)%Z then Z.to_N z else Z.to_N (z + 2 ^ 64).
End uint64.

Module int.
Definition max : Z := 2 ^ 63 - 1.
Definition wrap (z : Z) : Z := ((z + 2 ^ 63) mod 2 ^ 64 - 2 ^ 63)%Z.
Definition add (a b : Z) : Z := wrap (a + b).
Definition mul (a b : Z) : Z := wrap (a * b).
(** [a / b] for a constant non-zero [b]: truncation towards zero. *)
Definition quot (a b : Z) : Z := Z.quot a b.
(** [len] of a map or slice; a length always fits an [int]. *)
Definition len (n : nat) : Z := Z.of_nat n.
End int.

(** ** Data *)

Module common.
(** [common.Address] is a 20-byte array; an address is represented by the
    big-endian number of its bytes, so that the byte-wise order used for
    sorting is the order of [N]. *)
Abbreviation Address := N (only parsing).
End common.

(** Modelled from the spec: the chain configuration types (package [params])
    are declared outside this file.  [Pallas.Block] is the activation block
    ([nil] when unset), [Pallas.Validators] maps a block number to the
    complete target membership list, each entry an address with its
    is-super flag. *)
Module params.
Record Validator : Set := mkValidator {
  Address : common.Address;
  Super : bool
}.

Record PallasConfig : Type := mkPallasConfig {
  Block : option N;
  Validators : gmap N (list Validator)
}.

Record CliqueConfig : Type := mkCliqueConfig {
  Epoch : N;
  Pallas : option PallasConfig
}.
End params.

(** [big.Int.Uint64] on a block number. *)
Definition Uint64 (x : N) : N := uint64.wrap x.

Module SuperTally.
(** [SuperTally]: the tally for voting on supervalidators. *)
Record t : Set := mk {
  Authorize : bool;
  Votes : Z
}.
End SuperTally.

(** Modelled from the spec: the [Snapshot] struct is declared outside this
    file; these are the fields pallas.go reads and writes, with the block
    number and hash the snapshot was taken at. *)
Record Snapshot : Type := mkSnapshot {
  config : params.CliqueConfig;
  Number : N;
  Hash : N;
  Signers : gset common.Address;
  SuperSigners : gset common.Address;
  SuperTally : gmap common.Address SuperTally.t;
  Recents : gmap N common.Address
}.

Definition set_Signers (f : gset common.Address → gset common.Address)
    (s : Snapshot) : Snapshot :=
  mkSnapshot (config s) (Number s) (Hash s) (f (Signers s)) (SuperSigners s)
             (SuperTally s) (Recents s).

Definition set_SuperSigners (f : gset common.Address → gset common.Address)
    (s : Snapshot) : Snapshot :=
  mkSnapshot (config s) (Number s) (Hash s) (Signers s) (f (SuperSigners s))
             (SuperTally s) (Recents s).

Definition set_SuperTally
    (f : gmap common.Address SuperTally.t → gmap common.Address SuperTally.t)
    (s : Snapshot) : Snapshot :=
  mkSnapshot (config s) (Number s) (Hash s) (Signers s) (SuperSigners s)
             (f (SuperTally s)) (Recents s).

Definition set_Recents (f : gmap N common.Address → gmap N common.Address)
    (s : Snapshot) : Snapshot :=
  mkSnapshot (config s) (Number s) (Hash s) (Signers s) (SuperSigners s)
             (SuperTally s) (f (Recents s)).

(** The orders in which [range m] may visit the entries of a map, and
    [range] over a set its members. *)
Definition range_order {V : Type} (m : gmap N V) (order : list (N * V)) : Prop :=
  order ≡ₚ map_to_list m.

Definition range_order_set (X : gset common.Address)
    (order : list common.Address) : Prop :=
  order ≡ₚ elements X.

(** ** Signer registry *)

(** [isSuper]: check if signer is currently a supersigner. *)
Definition isSuper (s : Snapshot) (signer : common.Address) : bool :=
  bool_decide (signer ∈ SuperSigners s).

(** Modelled from the spec: [signers] is declared outside this file; it
    returns all members of the signer set sorted ascending by address, as
    [superSigners] below does for the super signers. *)
Definition signers (s : Snapshot) : list common.Address :=
  merge_sort N.le (elements (Signers s)).

(** [superSigners]: the collected keys are sorted, so the order in which the
    map is ranged over does not show in the result. *)
Definition superSigners (s : Snapshot) (order : list common.Address)
    : list common.Address :=
  merge_sort N.le (foldl (λ sigs sig, sigs ++ [sig]) [] order).

(** [isPallasActive]: check if pallas is active at the given block number. *)
Definition isPallasActive (s : Snapshot) (blockNumber : N) : bool :=
  match params.Pallas (config s) with
  | None => false
  | Some pallas =>
      match params.Block pallas with
      | None => false
      | Some block => Uint64 block <=? blockNumber
      end
  end.

(** ** Supervalidator tally *)

(** [validVoteSuper]: whether it makes sense to cast the specified super
    vote. *)
Definition validVoteSuper (s : Snapshot) (address : common.Address)
    (authorize : bool) : bool :=
  let regularsigner := bool_decide (address ∈ Signers s) in
  let signer := bool_decide (address ∈ SuperSigners s) in
  (signer && negb authorize) || (negb signer && regularsigner && authorize).

(** [castSuper] adds a new vote into the tally. *)
Definition castSuper (s : Snapshot) (address : common.Address)
    (authorize : bool) : bool * Snapshot :=
  if negb (validVoteSuper s address authorize) then (false, s)
  else
    match SuperTally s !! address with
    | Some old =>
        let old' := SuperTally.mk (SuperTally.Authorize old)
                                  (int.add (SuperTally.Votes old) 1) in
        (true, set_SuperTally (λ m, <[address := old']> m) s)
    | None =>
        let new := SuperTally.mk authorize 1 in
        (true, set_SuperTally (λ m, <[address := new]> m) s)
    end.

(** [uncastSuper] removes a previously cast vote from the tally. *)
Definition uncastSuper (s : Snapshot) (address : common.Address)
    (authorize : bool) : bool * Snapshot :=
  match SuperTally s !! address with
  | None => (false, s)
  | Some tally =>
      if negb (eqb (SuperTally.Authorize tally) authorize) then (false, s)
      else if (1 <? SuperTally.Votes tally)%Z then
        let tally' := SuperTally.mk (SuperTally.Authorize tally)
                                    (int.add (SuperTally.Votes tally) (-1)) in
        (true, set_SuperTally (λ m, <[address := tally']> m) s)
      else
        (true, set_SuperTally (λ m, delete address m) s)
  end.

(** [hasPassedSuper]: the product [len(s.SuperSigners)*3] is an [int]
    product. *)
Definition hasPassedSuper (s : Snapshot) (tally : SuperTally.t)
    (blockNumber : N) : bool :=
  if (int.quot (int.mul (int.len (size (SuperSigners s))) 3) 4
        <? SuperTally.Votes tally)%Z
  then true else false.

(** ** Scheduled override *)

(** The first loop of [applyPallasOverride]: the set of target addresses. *)
Definition targetSigners (nextSigners : list params.Validator)
    : gset common.Address :=
  foldl (λ newSigners signer, {[params.Address signer]} ∪ newSigners)
        ∅ nextSigners.

(** Body of the loop over the old signers: a signer absent from the target
    set leaves the signers, and the super signers if it is one. *)
Definition removeSigner (newSigners : gset common.Address) (s : Snapshot)
    (oldSigner : common.Address) : Snapshot :=
  if bool_decide (oldSigner ∈ newSigners) then s
  else
    let s1 := set_Signers (λ X, X ∖ {[oldSigner]}) s in
    if bool_decide (oldSigner ∈ SuperSigners s1)
    then set_SuperSigners (λ X, X ∖ {[oldSigner]}) s1
    else s1.

(** Body of the loop over the target list. *)
Definition addSigner (s : Snapshot) (newSigner : params.Validator)
    : Snapshot :=
  let s1 :=
    if bool_decide (params.Address newSigner ∈ Signers s) then s
    else
      let s2 := set_Signers (λ X, {[params.Address newSigner]} ∪ X) s in
      if params.Super newSigner
      then set_SuperSigners (λ X, {[params.Address newSigner]} ∪ X) s2
      else s2 in
  if params.Super newSigner
  then set_SuperSigners (λ X, {[params.Address newSigner]} ∪ X) s1
  else s1.

(** [nextNumber := header.Number.Uint64() + 1], the target block. *)
Definition nextNumber (headerNumber : N) : N :=
  uint64.add (Uint64 headerNumber) 1.

(** [applyPallasOverride]: if pallas is active, check for overrides.
    [headerNumber] is [header.Number]; [order] is the order in which the old
    signers are ranged over.  The calls to the logger are left out. *)
Definition applyPallasOverride (s : Snapshot) (headerNumber : N)
    (order : list common.Address) : result Snapshot :=
  let nextNumber := nextNumber headerNumber in
  if isPallasActive s (uint64.sub nextNumber 1) then
    r ← uint64.rem nextNumber (params.Epoch (config s));
    if r =? 0 then
      match params.Pallas (config s) with
      | None => Panic NilDereference
      | Some pallas =>
          match params.Validators pallas !! nextNumber with
          | Some nextSigners =>
              let newSigners := targetSigners nextSigners in
              let s1 := foldl (removeSigner newSigners) s order in
              let s2 := foldl addSigner s1 nextSigners in
              Ok (set_Recents (λ _, ∅) s2)
          | None => Ok s
          end
      end
    else Ok s
  else Ok s.

(** ** Proposer schedule *)

(** The loop of [lastSlot] over the recent signers, visited in [order]. *)
Fixpoint lastSlot_range (signer : common.Address)
    (order : list (N * common.Address)) : N :=
  match order with
  | [] => 0
  | (bn, recent) :: order' =>
      if bool_decide (recent = signer) then bn
      else lastSlot_range signer order'
  end.

(** [lastSlot]: indexing the signers out of range panics. *)
Definition lastSlot (s : Snapshot) (slot : N)
    (order : list (N * common.Address)) : result N :=
  match signers s !! N.to_nat slot with
  | None => Panic IndexOutOfRange
  | Some signer => Ok (lastSlot_range signer order)
  end.

(** [offset]: the index of [signer] among the sorted signers, or their
    number when it is not one of them. *)
Definition offset (s : Snapshot) (signer : common.Address) : Z :=
  let signers := signers s in
  match list_find (λ _signer, _signer = signer) signers with
  | Some (i, _) => int.len i
  | None => int.len (length signers)
  end.

(** [computeDelay].  The three calls of [lastSlot] range over the recent
    signers in the orders [oPrimary] (primary slot), [oSecondary] (secondary
    slot) and [oReplaced] (replaced slot). *)
Definition computeDelay (snap : Snapshot) (signer : common.Address)
    (number : N) (oPrimary oSecondary oReplaced : list (N * common.Address))
    : result (N * bool) :=
  let signerCount := uint64.of_int (int.len (length (signers snap))) in
  let offset := offset snap signer in
  primarySigner ← uint64.rem number signerCount;
  number_mod ← uint64.rem number signerCount;
  secondarySigner ←
    uint64.rem (uint64.add (uint64.sub number_mod 1) (signerCount / 2))
               signerCount;
  primaryLastSlot ← lastSlot snap primarySigner oPrimary;
  if primaryLastSlot =? 0 then
    secondaryLastSlot ← lastSlot snap secondarySigner oSecondary;
    if negb (secondaryLastSlot =? 0) then
      replaced ← uint64.rem secondaryLastSlot signerCount;
      if replaced =? uint64.of_int offset then Ok (1, false)
      else Ok (2, true)
    else if secondarySigner =? uint64.of_int offset then Ok (1, false)
    else Ok (2, true)
  else
    replaced ← uint64.rem primaryLastSlot signerCount;
    replacedLastSlot ← lastSlot snap replaced oReplaced;
    if negb (replacedLastSlot =? 0) then
      if secondarySigner =? uint64.of_int offset then Ok (0, false)
      else Ok (2, true)
    else
      if replaced =? uint64.of_int offset then Ok (0, false)
      else if secondarySigner =? uint64.of_int offset then Ok (1, false)
      else Ok (2, true).

(** ** Notions the specification uses *)

(** The invariant of the data model: every super signer is a signer. *)
Definition superSubset (s : Snapshot) : Prop := SuperSigners s ⊆ Signers s.

(** The block numbers retained in [Recents] whose producer is [signer], and
    the most recent (largest) of them, 0 when there is none. *)
Definition producedBlocks (s : Snapshot) (signer : common.Address) : list N :=
  (filter (λ entry, entry.2 = signer) (map_to_list (Recents s))).*1.

Definition mostRecent (s : Snapshot) (signer : common.Address) : N :=
  foldr N.max 0 (producedBlocks s signer).

(** The addresses of a target membership list, and those flagged super. *)
Definition targetSet (nextSigners : list params.Validator)
    : gset common.Address :=
  list_to_set (params.Address <$> nextSigners).

Definition targetSuperSet (nextSigners : list params.Validator)
    : gset common.Address :=
  list_to_set (params.Address <$> filter (λ v, params.Super v = true) nextSigners).

(** [n] calls of a tally method in a row: the flag tells whether every call
    so far returned true, and a call is only made while it does. *)
Definition voteStep (op : Snapshot → bool * Snapshot)
    (st : bool * Snapshot) : bool * Snapshot :=
  if st.1 then op st.2 else st.

Definition repeatVote (n : N) (op : Snapshot → bool * Snapshot)
    (s : Snapshot) : bool * Snapshot :=
  N.iter n (voteStep op) (true, s).

(** The quantities [computeDelay] names: the signer count, the primary slot
    and the secondary slot of a block number. *)
Definition signerCount (snap : Snapshot) : N :=
  uint64.of_int (int.len (length (signers snap))).

Definition primarySlot (snap : Snapshot) (number : N) : N :=
  number mod signerCount snap.

Definition secondarySlot (snap : Snapshot) (number : N) : N :=
  uint64.add (uint64.sub (number mod signerCount snap) 1)
             (signerCount snap / 2)
  mod signerCount snap.

(** The decisions of [computeDelay] as a table over the caller's slot [me],
    the secondary slot and the three results of [lastSlot]. *)
Definition delayTable (count me secondary primaryLast secondaryLast
    replacedLast : N) : N * bool :=
  if primaryLast =? 0 then
    if negb (secondaryLast =? 0) then
      if secondaryLast mod count =? me then (1, false) else (2, true)
    else if secondary =? me then (1, false)
    else (2, true)
  else
    if negb (replacedLast =? 0) then
      if secondary =? me then (0, false) else (2, true)
    else if primaryLast mod count =? me then (0, false)
    else if secondary =? me then (1, false)
    else (2, true).

(** Every tally holds a vote count an [int] can hold and that is at least
    one: a tally exists only while it has votes. *)
Definition tallyCounts (s : Snapshot) : Prop :=
  ∀ c t, SuperTally s !! c = Some t →
         (1 ≤ SuperTally.Votes t ≤ int.max)%Z.

(** [floor (3 * S / 4)] in exact arithmetic. *)
Definition threshold (superCount : nat) : Z := (3 * Z.of_nat superCount / 4)%Z.

(** ** Sample data *)

Module Sample.
Definition a1 : common.Address := 10.
Definition a2 : common.Address := 20.
Definition a3 : common.Address := 30.
Definition a4 : common.Address := 40.

Definition cfg0 : params.CliqueConfig := params.mkCliqueConfig 30000 None.

(** Four signers, two of them super, nothing recent. *)
Definition four : Snapshot :=
  mkSnapshot cfg0 100 0 {[a1; a2; a3; a4]} {[a1; a2]} ∅ ∅.

(** One signer recorded as the producer of two retained blocks. *)
Definition twice : Snapshot :=
  mkSnapshot cfg0 7 0 {[a1]} {[a1]} ∅ {[5 := a1; 7 := a1]}.

(** Block 5 is in turn for slot 1 ([a2]); its signer last produced block 4,
    the turn of slot 0 ([a1]), which has nothing recent. *)
Definition displaced : Snapshot :=
  mkSnapshot cfg0 4 0 {[a1; a2; a3; a4]} {[a1; a2]} ∅ {[4 := a2]}.

(** Block 5 is in turn for slot 1 ([a2]), whose signer is recorded for
    two retained blocks, 4 and 6; block 6 is the turn of slot 2 ([a3]),
    block 4 that of slot 0 ([a1]), and neither has anything recent. *)
Definition twoBlocks : Snapshot :=
  mkSnapshot cfg0 6 0 {[a1; a2; a3; a4]} {[a1; a2]} ∅ {[4 := a2; 6 := a2]}.

(** An override scheduled for block 10, the end of an epoch of 10 blocks:
    [a1] stays without the super flag, [a3] joins as super signer. *)
Definition schedule : params.PallasConfig :=
  params.mkPallasConfig (Some 0)
    {[10 := [params.mkValidator a1 false; params.mkValidator a3 true]]}.

Definition cfg1 : params.CliqueConfig :=
  params.mkCliqueConfig 10 (Some schedule).

(** Before the override [a1] and [a2] sign and [a1] is super. *)
Definition before : Snapshot :=
  mkSnapshot cfg1 9 0 {[a1; a2]} {[a1]} ∅ {[8 := a2; 9 := a1]}.

(** Four signers, all of them super. *)
Definition allSuper : Snapshot :=
  mkSnapshot cfg0 100 0 {[a1; a2; a3; a4]} {[a1; a2; a3; a4]} ∅ ∅.

(** [a3] has two votes for its promotion, [a1] one for its demotion. *)
Definition voted : Snapshot :=
  mkSnapshot cfg0 100 0 {[a1; a2; a3; a4]} {[a1; a2]}
    {[a3 := SuperTally.mk true 2; a1 := SuperTally.mk false 1]} ∅.

(** [a3] can be promoted, but the tally it still has is one for a
    demotion. *)
Definition stale : Snapshot :=
  mkSnapshot cfg0 100 0 {[a1; a2; a3; a4]} {[a1; a2]}
    {[a3 := SuperTally.mk false 1]} ∅.

(** No signer at all. *)
Definition nobody : Snapshot := mkSnapshot cfg0 0 0 ∅ ∅ ∅ ∅.
End Sample.

(** A decidable statement about concrete data, settled by evaluation. *)
Ltac decide_by_compute :=
  refine (bool_decide_unpack _ _); vm_compute; exact I.

(** Case analysis on the condition of the first conditional of the goal. *)
Ltac case_if :=
  match goal with
  | |- context [if ?b then _ else _] => destruct b
  end.

(** ** The sorted signers *)

Section Registry.
Implicit Types (s : Snapshot) (a signer : common.Address).

Lemma signers_Permutation s : signers s ≡ₚ elements (Signers s).
Proof. apply merge_sort_Permutation. Qed.

Lemma length_signers s : length (signers s) = size (Signers s).
Proof. by rewrite signers_Permutation. Qed.

Lemma elem_of_signers s a : a ∈ signers s ↔ a ∈ Signers s.
Proof. by rewrite signers_Permutation, elem_of_elements. Qed.

Lemma NoDup_signers s : NoDup (signers s).
Proof. rewrite signers_Permutation. apply NoDup_elements. Qed.

Lemma signers_Sorted s : Sorted N.le (signers s).
Proof. apply (Sorted_merge_sort N.le). Qed.

(** The signers are a function of the signer set alone. *)
Lemma signers_ext s1 s2 : Signers s1 = Signers s2 → signers s1 = signers s2.
Proof. unfold signers. by intros ->. Qed.

Lemma signerCount_pos s : Signers s ≠ ∅ → (0 < length (signers s))%nat.
Proof.
  intros Hne. rewrite length_signers.
  destruct (decide (size (Signers s) = 0%nat)) as [Hz|Hz]; [|lia].
  apply size_empty_inv in Hz. exfalso. apply Hne. by apply leibniz_equiv.
Qed.

Lemma signerCount_empty s : Signers s = ∅ → signers s = [].
Proof. unfold signers. intros ->. by rewrite elements_empty. Qed.

Lemma of_int_len (n : nat) : uint64.of_int (int.len n) = N.of_nat n.
Proof.
  unfold uint64.of_int, int.len.
  destruct (Z.leb_spec 0 (Z.of_nat n)); lia.
Qed.

Lemma rem_Ok (a b : N) : b ≠ 0 → uint64.rem a b = Ok (a mod b).
Proof. unfold uint64.rem. intros Hb. by destruct (N.eqb_spec b 0). Qed.

Lemma rem_zero (a : N) : uint64.rem a 0 = Panic DivideByZero.
Proof. reflexivity. Qed.

Lemma lastSlot_Ok s (slot : N) order :
  slot < N.of_nat (length (signers s)) →
  ∃ signer, signers s !! N.to_nat slot = Some signer
            ∧ lastSlot s slot order = Ok (lastSlot_range signer order).
Proof.
  intros Hlt.
  destruct (lookup_lt_is_Some_2 (signers s) (N.to_nat slot)) as [x Hx]; [lia|].
  exists x. split; [done|]. unfold lastSlot. by rewrite Hx.
Qed.

Lemma lastSlot_out_of_range s (slot : N) order :
  N.of_nat (length (signers s)) ≤ slot →
  lastSlot s slot order = Panic IndexOutOfRange.
Proof.
  intros Hge. unfold lastSlot.
  rewrite (lookup_ge_None_2 (signers s) (N.to_nat slot)); [done|lia].
Qed.

(** [offset] finds the slot of a signer and returns the count for anyone
    else. *)
Lemma offset_slot s signer (k : nat) :
  signers s !! k = Some signer → offset s signer = int.len k.
Proof.
  intros Hk. unfold offset.
  destruct (list_find _ _) as [[i y]|] eqn:Hfind.
  - apply list_find_Some in Hfind as (Hi & -> & _).
    f_equal. eapply NoDup_lookup; eauto using NoDup_signers.
  - apply list_find_None in Hfind.
    rewrite Forall_forall in Hfind.
    exfalso. eapply Hfind; [|done]. eapply list_elem_of_lookup_2; eauto.
Qed.

Lemma offset_not_signer s signer :
  signer ∉ Signers s → offset s signer = int.len (length (signers s)).
Proof.
  intros Hnot. unfold offset.
  destruct (list_find _ _) as [[i y]|] eqn:Hfind; [|done].
  apply list_find_Some in Hfind as (Hi & -> & _).
  exfalso. apply Hnot, elem_of_signers. eapply list_elem_of_lookup_2; eauto.
Qed.
End Registry.

Example signers_four : signers Sample.four = [10; 20; 30; 40].
Proof. reflexivity. Qed.

Example offset_four : offset Sample.four 30 = 2%Z ∧ offset Sample.four 7 = 4%Z.
Proof. split; reflexivity. Qed.

Example computeDelay_four_secondary :
computeDelay Sample.four 30 101 [] [] [] = Ok (1, false).
Proof. vm_compute. reflexivity. Qed.


(** ** [lastSlot] and the order of iteration *)

Section LastSlot.
Implicit Types (s : Snapshot) (signer : common.Address).
Implicit Types (order : list (N * common.Address)).

(** The loop returns the block number of the first entry of the signer it
    meets, or 0 after all entries. *)
Lemma lastSlot_range_spec signer order :
  (lastSlot_range signer order, signer) ∈ order
  ∨ (lastSlot_range signer order = 0 ∧ ∀ bn, (bn, signer) ∉ order).
Proof.
  induction order as [|[bn recent] order IH]; simpl.
  - right. split; [done|]. intros bn. apply not_elem_of_nil.
  - case_bool_decide as Heq.
    + left. subst recent. apply list_elem_of_here.
    + destruct IH as [IH|[IH0 IHno]].
      * left. by apply list_elem_of_further.
      * right. split; [done|]. intros bn' Hin.
        apply elem_of_cons in Hin as [Hhd|Htl]; [congruence|].
        by apply (IHno bn').
Qed.

Lemma elem_of_range_order s order bn signer :
  range_order (Recents s) order →
  (bn, signer) ∈ order ↔ Recents s !! bn = Some signer.
Proof.
  unfold range_order. intros ->. apply elem_of_map_to_list.
Qed.

Lemma elem_of_producedBlocks s signer bn :
  bn ∈ producedBlocks s signer ↔ Recents s !! bn = Some signer.
Proof.
  unfold producedBlocks. rewrite list_elem_of_fmap. split.
  - intros ([bn' recent] & -> & Hin).
    apply list_elem_of_filter in Hin as [Heq Hin]. simpl in *. subst recent.
    by apply elem_of_map_to_list.
  - intros Hbn. exists (bn, signer). split; [done|].
    apply list_elem_of_filter. split; [done|]. by apply elem_of_map_to_list.
Qed.

Lemma foldr_max_ge (l : list N) bn : bn ∈ l → bn ≤ foldr N.max 0 l.
Proof.
  induction l as [|x l IH]; simpl.
  - intros Hin. by apply not_elem_of_nil in Hin.
  - intros Hin. apply elem_of_cons in Hin as [->|Hin]; [lia|].
    specialize (IH Hin). lia.
Qed.

Lemma foldr_max_elem (l : list N) : l ≠ [] → foldr N.max 0 l ∈ l.
Proof.
  induction l as [|x l IH]; [done|]. intros _. simpl.
  destruct l as [|y l].
  - simpl. rewrite N.max_0_r. apply list_elem_of_here.
  - destruct (N.max_spec x (foldr N.max 0 (y :: l))) as [[_ ->]|[_ ->]].
    + apply list_elem_of_further. by apply IH.
    + apply list_elem_of_here.
Qed.

(** [mostRecent] is what its name says. *)
Lemma mostRecent_upper s signer bn :
  Recents s !! bn = Some signer → bn ≤ mostRecent s signer.
Proof.
  intros Hbn. apply foldr_max_ge. by apply elem_of_producedBlocks.
Qed.

Lemma mostRecent_retained s signer bn :
  Recents s !! bn = Some signer →
  Recents s !! mostRecent s signer = Some signer.
Proof.
  intros Hbn. apply elem_of_producedBlocks, foldr_max_elem.
  apply elem_of_producedBlocks in Hbn. intros Hnil. rewrite Hnil in Hbn.
  by apply not_elem_of_nil in Hbn.
Qed.

Lemma mostRecent_none s signer :
  (∀ bn, Recents s !! bn ≠ Some signer) → mostRecent s signer = 0.
Proof.
  intros Hno. unfold mostRecent.
  destruct (producedBlocks s signer) as [|bn l] eqn:Hl; [done|].
  exfalso. apply (Hno bn), elem_of_producedBlocks. rewrite Hl.
  apply list_elem_of_here.
Qed.
End LastSlot.

(** C1, as stated, fails: when a signer is the recorded producer of two
    retained blocks, [lastSlot] returns whichever of them the iteration over
    [Recents] meets first.  In [Sample.twice] the signer of slot 0 produced
    blocks 5 and 7; both orders below are orders of iteration over its
    [Recents], one makes [lastSlot] return 5, the other 7, and the most
    recent block is 7. *)
Lemma lastSlot_follows_range_order :
  0 < N.of_nat (length (signers Sample.twice))
  ∧ range_order (Recents Sample.twice) [(5, Sample.a1); (7, Sample.a1)]
  ∧ range_order (Recents Sample.twice) [(7, Sample.a1); (5, Sample.a1)]
  ∧ lastSlot Sample.twice 0 [(5, Sample.a1); (7, Sample.a1)] = Ok 5
  ∧ lastSlot Sample.twice 0 [(7, Sample.a1); (5, Sample.a1)] = Ok 7
  ∧ mostRecent Sample.twice Sample.a1 = 7.
Proof.
  split; [by vm_compute|].
  assert (Hlist : map_to_list (Recents Sample.twice)
                  = [(5, Sample.a1); (7, Sample.a1)]) by (vm_compute; done).
  unfold range_order. rewrite Hlist.
  split; [done|]. split; [apply Permutation_swap|].
  repeat split; vm_compute; done.
Qed.

(** C1, amended: for every snapshot, every slot below the signer count and
    every order of iteration over [Recents], [lastSlot] returns a block
    number that [Recents] records for the signer of that slot, or 0 when it
    records none for that signer; and when the signer is the producer of at
    most one retained block, the result is the most recent such block
    number (or 0), whatever the order of iteration. *)
Theorem lastSlot_retained (s : Snapshot) (slot : N)
    (order : list (N * common.Address)) :
  slot < N.of_nat (length (signers s)) →
  range_order (Recents s) order →
  ∃ signer bn,
    signers s !! N.to_nat slot = Some signer
    ∧ lastSlot s slot order = Ok bn
    ∧ (Recents s !! bn = Some signer
       ∨ (bn = 0 ∧ ∀ bn', Recents s !! bn' ≠ Some signer))
    ∧ ((∀ bn1 bn2, Recents s !! bn1 = Some signer →
                   Recents s !! bn2 = Some signer → bn1 = bn2) →
       bn = mostRecent s signer).
Proof.
  intros Hslot Horder.
  destruct (lastSlot_Ok s slot order Hslot) as (signer & Hsigner & Hlast).
  exists signer, (lastSlot_range signer order).
  split; [done|]. split; [done|].
  assert (Hcases : Recents s !! lastSlot_range signer order = Some signer
            ∨ (lastSlot_range signer order = 0
               ∧ ∀ bn', Recents s !! bn' ≠ Some signer)).
  { destruct (lastSlot_range_spec signer order) as [Hin|[H0 Hno]].
    - left. by apply (elem_of_range_order s order).
    - right. split; [done|]. intros bn' Hbn'.
      apply (Hno bn'). by apply (elem_of_range_order s order). }
  split; [done|]. intros Hunique.
  destruct Hcases as [Hin|[H0 Hno]].
  - apply Hunique; [done|]. by apply (mostRecent_retained s signer _ Hin).
  - rewrite H0. symmetry. by apply mostRecent_none.
Qed.

Lemma lastSlot_retained_witness :
  1 < N.of_nat (length (signers Sample.displaced))
  ∧ range_order (Recents Sample.displaced) [(4, Sample.a2)]
  ∧ ∃ signer bn,
    signers Sample.displaced !! N.to_nat 1 = Some signer
    ∧ lastSlot Sample.displaced 1 [(4, Sample.a2)] = Ok bn
    ∧ (Recents Sample.displaced !! bn = Some signer
       ∨ (bn = 0 ∧ ∀ bn', Recents Sample.displaced !! bn' ≠ Some signer))
    ∧ ((∀ bn1 bn2, Recents Sample.displaced !! bn1 = Some signer →
                   Recents Sample.displaced !! bn2 = Some signer → bn1 = bn2) →
       bn = mostRecent Sample.displaced signer).
Proof.
  assert (Hslot : 1 < N.of_nat (length (signers Sample.displaced)))
    by (vm_compute; reflexivity).
  assert (Horder : range_order (Recents Sample.displaced) [(4, Sample.a2)])
    by (vm_compute; reflexivity).
  repeat (split; [assumption|]).
  exact (lastSlot_retained Sample.displaced 1 [(4, Sample.a2)] Hslot Horder).
Defined.

(** ** The supervalidator tally *)

Section Tally.
Implicit Types (s : Snapshot) (c : common.Address) (d : bool).

Lemma validVoteSuper_promote s c :
  validVoteSuper s c true = true ↔ c ∈ Signers s ∧ c ∉ SuperSigners s.
Proof.
  unfold validVoteSuper.
  repeat case_bool_decide; simpl; intuition congruence.
Qed.

Lemma validVoteSuper_demote s c :
  validVoteSuper s c false = true ↔ c ∈ SuperSigners s.
Proof.
  unfold validVoteSuper.
  repeat case_bool_decide; simpl; intuition congruence.
Qed.

Lemma castSuper_result s c d : (castSuper s c d).1 = validVoteSuper s c d.
Proof.
  unfold castSuper.
  destruct (validVoteSuper s c d); simpl; [|done].
  by destruct (SuperTally s !! c).
Qed.

Lemma castSuper_rejected s c d :
  (castSuper s c d).1 = false → (castSuper s c d).2 = s.
Proof.
  rewrite castSuper_result. unfold castSuper. by intros ->.
Qed.

(** Neither method touches the registry, so a direction that is valid stays
    valid across any number of calls. *)
Lemma castSuper_registry s c d :
  Signers (castSuper s c d).2 = Signers s
  ∧ SuperSigners (castSuper s c d).2 = SuperSigners s.
Proof.
  unfold castSuper.
  destruct (negb _); [done|]. by destruct (SuperTally s !! c).
Qed.

Lemma uncastSuper_registry s c d :
  Signers (uncastSuper s c d).2 = Signers s
  ∧ SuperSigners (uncastSuper s c d).2 = SuperSigners s.
Proof.
  unfold uncastSuper.
  destruct (SuperTally s !! c) as [tally|]; [|done].
  destruct (negb _); [done|]. by destruct (_ <? _)%Z.
Qed.

Lemma validVoteSuper_registry s1 s2 c d :
  Signers s1 = Signers s2 → SuperSigners s1 = SuperSigners s2 →
  validVoteSuper s1 c d = validVoteSuper s2 c d.
Proof. unfold validVoteSuper. by intros -> ->. Qed.
End Tally.

(** C4: [castSuper] with [authorize = true] returns true exactly for a signer
    that is not super, with [authorize = false] exactly for a super signer;
    in a snapshot that keeps the super signers among the signers both return
    false for an address that is not a signer; and a call that returns false
    leaves the snapshot as it was. *)
Theorem castSuper_valid (s : Snapshot) (c : common.Address) :
  ((castSuper s c true).1 = true ↔ c ∈ Signers s ∧ c ∉ SuperSigners s)
  ∧ ((castSuper s c false).1 = true ↔ c ∈ SuperSigners s)
  ∧ (superSubset s → c ∉ Signers s →
     (castSuper s c true).1 = false ∧ (castSuper s c false).1 = false)
  ∧ (∀ d, (castSuper s c d).1 = false → (castSuper s c d).2 = s).
Proof.
  rewrite !castSuper_result. repeat split.
  - by apply validVoteSuper_promote.
  - by apply validVoteSuper_promote.
  - by apply validVoteSuper_promote.
  - by apply validVoteSuper_demote.
  - by apply validVoteSuper_demote.
  - apply not_true_is_false. rewrite validVoteSuper_promote. tauto.
  - apply not_true_is_false. rewrite validVoteSuper_demote.
    unfold superSubset in *. set_solver.
  - intros d. apply castSuper_rejected.
Qed.

Lemma castSuper_valid_witness :
  superSubset Sample.four ∧ (7 ∉ Signers Sample.four)
  ∧ (castSuper Sample.four 7 true).1 = false
  ∧ (castSuper Sample.four 7 false).1 = false
  ∧ (castSuper Sample.four Sample.a3 true).1 = true
  ∧ (castSuper Sample.four Sample.a1 false).1 = true
  ∧ (castSuper Sample.four Sample.a1 true).2 = Sample.four.
Proof.
  assert (Hsub : superSubset Sample.four).
  { unfold superSubset. decide_by_compute. }
  assert (Hout : 7 ∉ Signers Sample.four).
  { decide_by_compute. }
  split; [done|]. split; [done|].
  destruct (castSuper_valid Sample.four 7) as (_ & _ & Hnot & _).
  destruct (Hnot Hsub Hout) as [Ht Hf].
  split; [done|]. split; [done|].
  destruct (castSuper_valid Sample.four Sample.a3) as (Hp & _).
  destruct (castSuper_valid Sample.four Sample.a1) as (_ & Hd & _ & Hrej).
  split; [apply Hp; split; decide_by_compute|].
  split; [apply Hd; decide_by_compute|].
  apply Hrej. vm_compute. reflexivity.
Defined.

(** ** Casting and revoking a vote several times *)

Section RoundTrip.
Implicit Types (s : Snapshot) (c : common.Address) (d : bool) (n : N).

Lemma int_wrap_id (z : Z) :
  (- 2 ^ 63 ≤ z ≤ int.max)%Z → int.wrap z = z.
Proof.
  unfold int.wrap, int.max. intros Hz.
  rewrite Z.mod_small; lia.
Qed.

Lemma int_wrap_add (a b : Z) : int.wrap (int.wrap a + b) = int.wrap (a + b).
Proof.
  unfold int.wrap. f_equal.
  replace ((a + 2 ^ 63) mod 2 ^ 64 - 2 ^ 63 + b + 2 ^ 63)%Z
    with ((a + 2 ^ 63) mod 2 ^ 64 + b)%Z by lia.
  rewrite Zplus_mod_idemp_l. f_equal. lia.
Qed.

(** The snapshot [s] with the tally of [c] set to [v] votes for [d]. *)
Local Abbreviation tallied s c d v :=
  (set_SuperTally
     (λ _, <[c := SuperTally.mk d v]> (SuperTally s)) s).

Lemma repeatVote_succ n op s :
  repeatVote (N.succ n) op s = voteStep op (repeatVote n op s).
Proof. unfold repeatVote. apply N.iter_succ. Qed.

Lemma voteStep_stuck op (st : bool * Snapshot) n :
  st.1 = false → (N.iter n (voteStep op) st).1 = false.
Proof.
  intros Hst. apply N.iter_invariant; [|done].
  intros st' Hst'. unfold voteStep. by rewrite Hst'.
Qed.

Lemma castSuper_tallied s c d (v : Z) :
  validVoteSuper s c d = true →
  castSuper (tallied s c d v) c d = (true, tallied s c d (int.add v 1)).
Proof.
  intros Hvalid. unfold castSuper.
  rewrite (validVoteSuper_registry _ s) by done. rewrite Hvalid. simpl.
  rewrite lookup_insert_eq. unfold set_SuperTally. simpl.
  by rewrite insert_insert_eq.
Qed.

(** After [n + 1] casts on a candidate without a tally the tally holds
    [n + 1] votes, as far as an [int] can count. *)
Lemma repeatVote_castSuper s c d n :
  validVoteSuper s c d = true → SuperTally s !! c = None →
  repeatVote (N.succ n) (λ s', castSuper s' c d) s
  = (true, tallied s c d (int.wrap (Z.of_N n + 1))).
Proof.
  intros Hvalid Hnone. induction n as [|n IH] using N.peano_ind.
  - unfold repeatVote. simpl. unfold voteStep, castSuper. simpl.
    by rewrite Hvalid, Hnone.
  - rewrite repeatVote_succ, IH. unfold voteStep. simpl.
    rewrite castSuper_tallied by done. unfold int.add.
    rewrite int_wrap_add.
    by replace (Z.of_N (N.succ n) + 1)%Z with (Z.of_N n + 1 + 1)%Z by lia.
Qed.

Lemma uncastSuper_tallied s c d (v : Z) :
  (1 < v ≤ int.max)%Z →
  uncastSuper (tallied s c d v) c d = (true, tallied s c d (v - 1)).
Proof.
  intros Hv. unfold uncastSuper. simpl. rewrite lookup_insert_eq. simpl.
  rewrite eqb_reflx. simpl.
  destruct (Z.ltb_spec 1 v) as [_|?]; [|lia].
  unfold set_SuperTally. simpl. rewrite insert_insert_eq.
  unfold int.add. rewrite int_wrap_id by (unfold int.max in *; lia).
  by replace (v + -1)%Z with (v - 1)%Z by lia.
Qed.

Lemma uncastSuper_last s c d (v : Z) :
  (v ≤ 1)%Z → SuperTally s !! c = None →
  uncastSuper (tallied s c d v) c d = (true, s).
Proof.
  intros Hv Hnone. unfold uncastSuper. simpl. rewrite lookup_insert_eq. simpl.
  rewrite eqb_reflx. simpl.
  destruct (Z.ltb_spec 1 v) as [?|_]; [lia|].
  unfold set_SuperTally. simpl.
  rewrite delete_insert_eq, delete_id by done. by destruct s.
Qed.

Lemma repeatVote_uncastSuper s c d n (v : Z) :
  (Z.of_N n < v ≤ int.max)%Z →
  repeatVote n (λ s', uncastSuper s' c d) (tallied s c d v)
  = (true, tallied s c d (v - Z.of_N n)).
Proof.
  induction n as [|n IH] using N.peano_ind; intros Hv.
  - unfold repeatVote. simpl. by replace (v - 0)%Z with v by lia.
  - rewrite repeatVote_succ, IH by lia. unfold voteStep. simpl.
    rewrite uncastSuper_tallied by lia.
    by replace (v - Z.of_N (N.succ n))%Z with (v - Z.of_N n - 1)%Z by lia.
Qed.
End RoundTrip.

Lemma repeatVote_add (p q : N) op (s : Snapshot) :
  repeatVote (p + q) op s = N.iter p (voteStep op) (repeatVote q op s).
Proof. unfold repeatVote. apply N.iter_add. Qed.

(** C5, as stated, fails for a number of calls an [int] cannot count: the
    vote count is an [int], and the cast number [2^63] wraps it to [-2^63];
    the first revoke then deletes the tally and the second one returns
    false.  Here the candidate [a3] of [Sample.four] has no tally and can be
    promoted before and after the casts. *)
Lemma round_trip_overflow :
  SuperTally Sample.four !! Sample.a3 = None
  ∧ validVoteSuper Sample.four Sample.a3 true = true
  ∧ 1 ≤ 2 ^ 63
  ∧ ∃ s',
      repeatVote (2 ^ 63) (λ s, castSuper s Sample.a3 true) Sample.four
      = (true, s')
      ∧ validVoteSuper s' Sample.a3 true = true
      ∧ (repeatVote (2 ^ 63) (λ s, uncastSuper s Sample.a3 true) s').1 = false.
Proof.
  split; [by vm_compute|]. split; [by vm_compute|]. split; [done|].
  eexists. split.
  { change (2 ^ 63) with (N.succ 9223372036854775807).
    apply repeatVote_castSuper; by vm_compute. }
  split; [by vm_compute|].
  change (2 ^ 63) with (9223372036854775806 + 2).
  rewrite repeatVote_add. apply voteStep_stuck. by vm_compute.
Qed.

(** C5, amended: for every snapshot without a tally for the candidate [c],
    every direction [d] that is valid for [c], and every number [n] of calls
    with [1 <= n <= 2^63 - 1] (what the [int] vote count can hold): [n]
    calls of [castSuper] all return true and leave [d] valid, and [n] calls
    of [uncastSuper] after them all return true and give back the snapshot
    the casts started from, so that [c] has no tally again. *)
Theorem castSuper_uncastSuper_round_trip (s : Snapshot) (c : common.Address)
    (d : bool) (n : N) :
  SuperTally s !! c = None →
  validVoteSuper s c d = true →
  1 ≤ n → (Z.of_N n ≤ int.max)%Z →
  ∃ s', repeatVote n (λ s0, castSuper s0 c d) s = (true, s')
        ∧ validVoteSuper s' c d = true
        ∧ repeatVote n (λ s0, uncastSuper s0 c d) s' = (true, s)
        ∧ SuperTally (repeatVote n (λ s0, uncastSuper s0 c d) s').2 !! c = None.
Proof.
  intros Hnone Hvalid Hn Hmax.
  set (m := N.pred n) in *.
  assert (Hm : n = N.succ m) by (subst m; lia).
  rewrite Hm in *. clear Hn.
  rewrite repeatVote_castSuper by done.
  rewrite int_wrap_id by (unfold int.max in *; lia).
  eexists. split; [done|].
  split; [by rewrite (validVoteSuper_registry _ s)|].
  assert (Hback : repeatVote (N.succ m) (λ s0, uncastSuper s0 c d)
            (set_SuperTally
               (λ _, <[c := SuperTally.mk d (Z.of_N m + 1)]> (SuperTally s)) s)
          = (true, s)).
  { rewrite repeatVote_succ, repeatVote_uncastSuper by lia.
    unfold voteStep. simpl. apply uncastSuper_last; [lia|done]. }
  rewrite Hback. by split.
Qed.

Lemma castSuper_uncastSuper_round_trip_witness :
  SuperTally Sample.four !! Sample.a3 = None
  ∧ validVoteSuper Sample.four Sample.a3 true = true
  ∧ 1 ≤ 3 ∧ (Z.of_N 3 ≤ int.max)%Z
  ∧ ∃ s', repeatVote 3 (λ s0, castSuper s0 Sample.a3 true) Sample.four
          = (true, s')
        ∧ validVoteSuper s' Sample.a3 true = true
        ∧ repeatVote 3 (λ s0, uncastSuper s0 Sample.a3 true) s'
          = (true, Sample.four)
        ∧ SuperTally
            (repeatVote 3 (λ s0, uncastSuper s0 Sample.a3 true) s').2
          !! Sample.a3 = None.
Proof.
  assert (H1 : SuperTally Sample.four !! Sample.a3 = None) by reflexivity.
  assert (H2 : validVoteSuper Sample.four Sample.a3 true = true)
    by (vm_compute; reflexivity).
  assert (H3 : 1 ≤ 3) by lia.
  assert (H4 : (Z.of_N 3 ≤ int.max)%Z) by (vm_compute; discriminate).
  repeat (split; [assumption|]).
  exact (castSuper_uncastSuper_round_trip Sample.four Sample.a3 true 3
           H1 H2 H3 H4).
Defined.

(** ** The supermajority threshold *)

Lemma int_mul_exact (a b : Z) :
  (0 ≤ a * b ≤ int.max)%Z → int.mul a b = (a * b)%Z.
Proof. intros H. unfold int.mul. apply int_wrap_id. lia. Qed.

Lemma hasPassedSuper_exact (s : Snapshot) (tally : SuperTally.t) (bn : N) :
  (3 * int.len (size (SuperSigners s)) ≤ int.max)%Z →
  hasPassedSuper s tally bn
  = bool_decide (threshold (size (SuperSigners s)) < SuperTally.Votes tally)%Z.
Proof.
  intros Hfit. unfold hasPassedSuper, threshold, int.quot, int.len in *.
  rewrite int_mul_exact by lia.
  rewrite Z.quot_div_nonneg by lia.
  replace (Z.of_nat (size (SuperSigners s)) * 3)%Z
    with (3 * Z.of_nat (size (SuperSigners s)))%Z by lia.
  destruct (Z.ltb_spec (3 * Z.of_nat (size (SuperSigners s)) / 4)
              (SuperTally.Votes tally)).
  - by rewrite bool_decide_eq_true_2.
  - rewrite bool_decide_eq_false_2; [done|lia].
Qed.

(** C6: as long as the product [3 * S] is exact (it fits an [int]),
    [hasPassedSuper] returns true exactly when the votes exceed
    [floor (3 * S / 4)]; for [S] in {1, 4, 8, 100} it returns false at
    [floor (3 * S / 4)] votes and true at one vote more. *)
Theorem hasPassedSuper_threshold (s : Snapshot) (tally : SuperTally.t)
    (blockNumber : N) :
  let S := size (SuperSigners s) in
  let v := SuperTally.Votes tally in
  ((3 * int.len S ≤ int.max)%Z →
   (hasPassedSuper s tally blockNumber = true ↔ (threshold S < v)%Z))
  ∧ (S ∈ [1; 4; 8; 100]%nat →
     (v = threshold S → hasPassedSuper s tally blockNumber = false)
     ∧ (v = (threshold S + 1)%Z → hasPassedSuper s tally blockNumber = true)).
Proof.
  intros S v. split.
  - intros Hfit. rewrite hasPassedSuper_exact by done.
    apply bool_decide_eq_true.
  - intros HS.
    assert (Hfit : (3 * int.len S ≤ int.max)%Z).
    { unfold int.len, int.max.
      repeat (apply elem_of_cons in HS as [->|HS]; [lia|]).
      by apply not_elem_of_nil in HS. }
    rewrite hasPassedSuper_exact by done. fold S v. split; intros ->.
    + apply bool_decide_eq_false_2. lia.
    + apply bool_decide_eq_true_2. lia.
Qed.

Lemma hasPassedSuper_threshold_witness :
  (3 * int.len (size (SuperSigners Sample.allSuper)) ≤ int.max)%Z
  ∧ size (SuperSigners Sample.allSuper) ∈ [1; 4; 8; 100]%nat
  ∧ threshold (size (SuperSigners Sample.allSuper)) = 3%Z
  ∧ hasPassedSuper Sample.allSuper (SuperTally.mk true 3) 100 = false
  ∧ hasPassedSuper Sample.allSuper (SuperTally.mk true 4) 100 = true.
Proof.
  assert (Hfit : (3 * int.len (size (SuperSigners Sample.allSuper))
                  ≤ int.max)%Z) by (vm_compute; discriminate).
  assert (HS : size (SuperSigners Sample.allSuper) ∈ [1; 4; 8; 100]%nat)
    by decide_by_compute.
  assert (Hthr : threshold (size (SuperSigners Sample.allSuper)) = 3%Z)
    by (vm_compute; reflexivity).
  repeat (split; [assumption|]).
  split.
  - destruct (hasPassedSuper_threshold Sample.allSuper
                (SuperTally.mk true 3) 100) as [_ Hb].
    destruct (Hb HS) as [Hlow _]. apply Hlow. vm_compute. reflexivity.
  - destruct (hasPassedSuper_threshold Sample.allSuper
                (SuperTally.mk true 4) 100) as [Hiff _].
    apply (Hiff Hfit). vm_compute. reflexivity.
Defined.

(** ** The scheduled override *)

Section OverrideLoops.
Implicit Types (s : Snapshot) (a : common.Address).
Implicit Types (l : list params.Validator) (order : list common.Address).

Lemma targetSigners_targetSet l : targetSigners l = targetSet l.
Proof.
  unfold targetSigners, targetSet.
  assert (Hgen : ∀ acc : gset N,
    foldl (λ newSigners signer, {[params.Address signer]} ∪ newSigners) acc l
    = list_to_set (params.Address <$> l) ∪ acc).
  { induction l as [|v l IH]; intros acc; simpl.
    - set_solver.
    - rewrite IH. set_solver. }
  rewrite Hgen. set_solver.
Qed.

Lemma elem_of_targetSet l a :
  a ∈ targetSet l ↔ ∃ v, v ∈ l ∧ params.Address v = a.
Proof.
  unfold targetSet. rewrite elem_of_list_to_set, list_elem_of_fmap.
  naive_solver.
Qed.

Lemma elem_of_targetSuperSet l a :
  a ∈ targetSuperSet l
  ↔ ∃ v, v ∈ l ∧ params.Address v = a ∧ params.Super v = true.
Proof.
  unfold targetSuperSet. rewrite elem_of_list_to_set, list_elem_of_fmap.
  split.
  - intros (v & -> & Hv). apply list_elem_of_filter in Hv. naive_solver.
  - intros (v & Hv & <- & Hsuper). exists v. split; [done|].
    by apply list_elem_of_filter.
Qed.

Lemma targetSuperSet_subseteq l : targetSuperSet l ⊆ targetSet l.
Proof.
  intros a. rewrite elem_of_targetSuperSet, elem_of_targetSet. naive_solver.
Qed.

(** One round of the loop over the old signers. *)
Lemma removeSigner_sets (newSigners : gset N) s a :
  Signers (removeSigner newSigners s a)
  = Signers s ∖ ({[a]} ∖ newSigners)
  ∧ SuperSigners (removeSigner newSigners s a)
    = SuperSigners s ∖ ({[a]} ∖ newSigners).
Proof.
  unfold removeSigner. case_bool_decide as Hin.
  - split; set_solver.
  - simpl. case_bool_decide as Hsuper; simpl in *; split; set_solver.
Qed.

Lemma removeSigner_others (newSigners : gset N) s a :
  config (removeSigner newSigners s a) = config s
  ∧ SuperTally (removeSigner newSigners s a) = SuperTally s.
Proof.
  unfold removeSigner. case_bool_decide; [done|].
  simpl. by case_bool_decide.
Qed.

Lemma foldl_removeSigner (newSigners : gset N) order s :
  Signers (foldl (removeSigner newSigners) s order)
  = Signers s ∖ (list_to_set order ∖ newSigners)
  ∧ SuperSigners (foldl (removeSigner newSigners) s order)
    = SuperSigners s ∖ (list_to_set order ∖ newSigners)
  ∧ config (foldl (removeSigner newSigners) s order) = config s
  ∧ SuperTally (foldl (removeSigner newSigners) s order) = SuperTally s.
Proof.
  revert s. induction order as [|a order IH]; intros s; simpl.
  - repeat split; set_solver.
  - destruct (IH (removeSigner newSigners s a)) as (-> & -> & -> & ->).
    destruct (removeSigner_sets newSigners s a) as [-> ->].
    destruct (removeSigner_others newSigners s a) as [-> ->].
    repeat split; set_solver.
Qed.

(** One round of the loop over the target list. *)
Lemma addSigner_sets s (v : params.Validator) :
  Signers (addSigner s v) = {[params.Address v]} ∪ Signers s
  ∧ SuperSigners (addSigner s v)
    = (if params.Super v then {[params.Address v]} else ∅) ∪ SuperSigners s
  ∧ config (addSigner s v) = config s
  ∧ SuperTally (addSigner s v) = SuperTally s.
Proof.
  unfold addSigner. destruct (params.Super v);
    case_bool_decide; simpl; repeat split; set_solver.
Qed.

Lemma foldl_addSigner l s :
  Signers (foldl addSigner s l) = targetSet l ∪ Signers s
  ∧ SuperSigners (foldl addSigner s l) = targetSuperSet l ∪ SuperSigners s
  ∧ config (foldl addSigner s l) = config s
  ∧ SuperTally (foldl addSigner s l) = SuperTally s.
Proof.
  revert s. induction l as [|v l IH]; intros s; simpl.
  - unfold targetSet, targetSuperSet. simpl. repeat split; set_solver.
  - destruct (IH (addSigner s v)) as (-> & -> & -> & ->).
    destruct (addSigner_sets s v) as (-> & -> & -> & ->).
    unfold targetSet, targetSuperSet. simpl.
    rewrite filter_cons. destruct (params.Super v) eqn:Hsuper.
    + rewrite decide_True by done. simpl. repeat split; set_solver.
    + rewrite decide_False by done. repeat split; set_solver.
Qed.
End OverrideLoops.

Lemma union_retained (T X : gset N) : T ∪ X ∖ (X ∖ T) = T.
Proof.
  apply set_eq. intros a. destruct (decide (a ∈ T)); set_solver.
Qed.

Section Override.
Variables (s : Snapshot) (headerNumber : N) (order : list common.Address).
Variables (pallas : params.PallasConfig) (nextSigners : list params.Validator).

(** The override mechanism is active at the preceding block, the target
    block closes an epoch, and a membership list is scheduled for it. *)
Hypothesis active :
  isPallasActive s (uint64.sub (nextNumber headerNumber) 1) = true.
Hypothesis boundary :
  uint64.rem (nextNumber headerNumber) (params.Epoch (config s)) = Ok 0.
Hypothesis configured : params.Pallas (config s) = Some pallas.
Hypothesis scheduled :
  params.Validators pallas !! nextNumber headerNumber = Some nextSigners.

Lemma applyPallasOverride_applies :
  applyPallasOverride s headerNumber order
  = Ok (set_Recents (λ _, ∅)
          (foldl addSigner
             (foldl (removeSigner (targetSigners nextSigners)) s order)
             nextSigners)).
Proof.
  unfold applyPallasOverride.
  rewrite active, boundary. simpl.
  by rewrite configured, scheduled.
Qed.

(** What the override leaves in the two sets, for any order of iteration
    over the old signers. *)
Lemma applyPallasOverride_sets :
  range_order_set (Signers s) order →
  ∃ s', applyPallasOverride s headerNumber order = Ok s'
        ∧ Signers s' = targetSet nextSigners
        ∧ SuperSigners s'
          = targetSuperSet nextSigners
            ∪ (SuperSigners s ∖ (Signers s ∖ targetSet nextSigners))
        ∧ Recents s' = ∅
        ∧ SuperTally s' = SuperTally s.
Proof.
  intros Horder. eexists. split; [apply applyPallasOverride_applies|].
  simpl.
  destruct (foldl_addSigner nextSigners
              (foldl (removeSigner (targetSigners nextSigners)) s order))
    as (-> & -> & _ & ->).
  destruct (foldl_removeSigner (targetSigners nextSigners) order s)
    as (-> & -> & _ & ->).
  rewrite targetSigners_targetSet.
  assert (Hset : list_to_set order = Signers s).
  { apply set_eq. intros a. rewrite elem_of_list_to_set.
    unfold range_order_set in Horder. rewrite Horder.
    apply elem_of_elements. }
  rewrite Hset. repeat split; try done. apply union_retained.
Qed.

(** The override keeps the super signers among the signers. *)
Lemma applyPallasOverride_superSubset :
  range_order_set (Signers s) order → superSubset s →
  ∃ s', applyPallasOverride s headerNumber order = Ok s' ∧ superSubset s'.
Proof.
  intros Horder Hinv.
  destruct (applyPallasOverride_sets Horder)
    as (s' & Hrun & HS & HSS & _).
  exists s'. split; [done|]. unfold superSubset in *. rewrite HS, HSS.
  pose proof (targetSuperSet_subseteq nextSigners) as Hsub.
  intros a. destruct (decide (a ∈ targetSet nextSigners)); set_solver.
Qed.

(** C3: when a scheduled override applies at an epoch boundary, the signer
    set of the resulting snapshot is exactly the set of addresses of the
    target list, and the recent signers are empty. *)
Theorem applyPallasOverride_replaces_signers :
  range_order_set (Signers s) order →
  ∃ s', applyPallasOverride s headerNumber order = Ok s'
        ∧ (∀ a, a ∈ Signers s'
                ↔ ∃ v, v ∈ nextSigners ∧ params.Address v = a)
        ∧ Recents s' = ∅.
Proof.
  intros Horder.
  destruct (applyPallasOverride_sets Horder)
    as (s' & Hrun & HS & _ & HR & _).
  exists s'. split; [done|]. split; [|done].
  intros a. rewrite HS. apply elem_of_targetSet.
Qed.
End Override.

Lemma applyPallasOverride_replaces_signers_witness :
  isPallasActive Sample.before (uint64.sub (nextNumber 9) 1) = true
  ∧ uint64.rem (nextNumber 9) (params.Epoch (config Sample.before)) = Ok 0
  ∧ range_order_set (Signers Sample.before) [Sample.a2; Sample.a1]
  ∧ ∃ s', applyPallasOverride Sample.before 9 [Sample.a2; Sample.a1] = Ok s'
          ∧ (∀ a, a ∈ Signers s'
                  ↔ ∃ v, v ∈ [params.mkValidator Sample.a1 false;
                               params.mkValidator Sample.a3 true]
                         ∧ params.Address v = a)
          ∧ Recents s' = ∅.
Proof.
  assert (Hactive : isPallasActive Sample.before
            (uint64.sub (nextNumber 9) 1) = true)
    by (vm_compute; reflexivity).
  assert (Hboundary : uint64.rem (nextNumber 9)
            (params.Epoch (config Sample.before)) = Ok 0)
    by (vm_compute; reflexivity).
  assert (Horder : range_order_set (Signers Sample.before)
            [Sample.a2; Sample.a1]).
  { unfold range_order_set.
    replace (elements (Signers Sample.before)) with [Sample.a1; Sample.a2]
      by (vm_compute; reflexivity).
    apply Permutation_swap. }
  repeat (split; [assumption|]).
  apply (applyPallasOverride_replaces_signers Sample.before 9
           [Sample.a2; Sample.a1] Sample.schedule
           [params.mkValidator Sample.a1 false;
            params.mkValidator Sample.a3 true]
           Hactive Hboundary).
  - reflexivity.
  - vm_compute. reflexivity.
  - exact Horder.
Defined.

(** C2 does not hold of the code: a signer that stays in the set keeps its
    super status when the target list lists it without the super flag.  In
    [Sample.before] the signer [a1] is super; the list scheduled for block
    10 keeps [a1] without the flag and adds [a3] with it.  After the
    override the flagged addresses are [{a3}], the super signers
    [{a1, a3}]. *)
Theorem applyPallasOverride_keeps_retained_super :
  range_order_set (Signers Sample.before) [Sample.a1; Sample.a2]
  ∧ params.Validators Sample.schedule !! nextNumber 9
    = Some [params.mkValidator Sample.a1 false;
            params.mkValidator Sample.a3 true]
  ∧ targetSuperSet [params.mkValidator Sample.a1 false;
                    params.mkValidator Sample.a3 true] = {[Sample.a3]}
  ∧ ∃ s', applyPallasOverride Sample.before 9 [Sample.a1; Sample.a2] = Ok s'
          ∧ Signers s' = {[Sample.a1; Sample.a3]}
          ∧ SuperSigners s' = {[Sample.a1; Sample.a3]}
          ∧ isSuper s' Sample.a1 = true.
Proof.
  split; [unfold range_order_set; by vm_compute|].
  split; [by vm_compute|].
  split; [decide_by_compute|].
  eexists. split; [vm_compute; reflexivity|].
  split; [decide_by_compute|]. split; [decide_by_compute|].
  vm_compute. reflexivity.
Qed.

(** ** The proposer schedule *)

Section Schedule.
Variables (snap : Snapshot) (signer : common.Address) (number : N).
Variables (oPrimary oSecondary oReplaced : list (N * common.Address)).

Lemma signerCount_length : signerCount snap = N.of_nat (length (signers snap)).
Proof. apply of_int_len. Qed.

Lemma signerCount_nonzero : Signers snap ≠ ∅ → signerCount snap ≠ 0.
Proof.
  intros Hne. rewrite signerCount_length.
  pose proof (signerCount_pos snap Hne). lia.
Qed.

Lemma primarySlot_lt :
  Signers snap ≠ ∅ → primarySlot snap number < signerCount snap.
Proof. intros Hne. by apply N.mod_lt, signerCount_nonzero. Qed.

Lemma secondarySlot_lt :
  Signers snap ≠ ∅ → secondarySlot snap number < signerCount snap.
Proof. intros Hne. by apply N.mod_lt, signerCount_nonzero. Qed.

Lemma replacedSlot_lt (bn : N) :
  Signers snap ≠ ∅ → bn mod signerCount snap < signerCount snap.
Proof. intros Hne. by apply N.mod_lt, signerCount_nonzero. Qed.

Lemma slot_signer (slot : N) :
  slot < signerCount snap →
  ∃ a, signers snap !! N.to_nat slot = Some a
       ∧ ∀ order, lastSlot snap slot order = Ok (lastSlot_range a order).
Proof.
  rewrite signerCount_length. intros Hlt.
  destruct (lookup_lt_is_Some_2 (signers snap) (N.to_nat slot)) as [a Ha];
    [lia|].
  exists a. split; [done|]. intros order. unfold lastSlot. by rewrite Ha.
Qed.

(** With at least one signer [computeDelay] runs to its end, and what it
    returns is read off the table. *)
Lemma computeDelay_table :
  Signers snap ≠ ∅ →
  ∃ pSigner sSigner rSigner,
    signers snap !! N.to_nat (primarySlot snap number) = Some pSigner
    ∧ signers snap !! N.to_nat (secondarySlot snap number) = Some sSigner
    ∧ signers snap
        !! N.to_nat (lastSlot_range pSigner oPrimary mod signerCount snap)
      = Some rSigner
    ∧ computeDelay snap signer number oPrimary oSecondary oReplaced
      = Ok (delayTable (signerCount snap)
              (uint64.of_int (offset snap signer))
              (secondarySlot snap number)
              (lastSlot_range pSigner oPrimary)
              (lastSlot_range sSigner oSecondary)
              (lastSlot_range rSigner oReplaced)).
Proof.
  intros Hne.
  pose proof (signerCount_nonzero Hne) as Hcount.
  destruct (slot_signer _ (primarySlot_lt Hne)) as (p & Hp & HpLast).
  destruct (slot_signer _ (secondarySlot_lt Hne)) as (q & Hq & HqLast).
  destruct (slot_signer _ (replacedSlot_lt (lastSlot_range p oPrimary) Hne))
    as (r & Hr & HrLast).
  exists p, q, r. repeat (split; [done|]).
  unfold computeDelay. fold (signerCount snap).
  rewrite !(rem_Ok number) by done. simpl.
  rewrite rem_Ok by done. simpl.
  unfold primarySlot, secondarySlot in *.
  rewrite HpLast. simpl. unfold delayTable.
  destruct (lastSlot_range p oPrimary =? 0) eqn:Hpzero.
  - rewrite HqLast. simpl.
    destruct (lastSlot_range q oSecondary =? 0); simpl.
    + by case_if.
    + rewrite rem_Ok by done. simpl. by case_if.
  - rewrite rem_Ok by done. simpl. rewrite HrLast. simpl.
    destruct (lastSlot_range r oReplaced =? 0); simpl.
    + case_if; [done|]. by case_if.
    + by case_if.
Qed.

Lemma delayTable_tiers (count me secondary pLast sLast rLast : N) :
  ∃ delay wiggle,
    delayTable count me secondary pLast sLast rLast = (delay, wiggle)
    ∧ (delay = 0 ∨ delay = 1 ∨ delay = 2)
    ∧ (wiggle = true ↔ delay = 2).
Proof.
  unfold delayTable.
  repeat case_if;
    eexists _, _; (split; [reflexivity|]); split; auto; split;
    intros; (done || lia).
Qed.

Lemma delayTable_outsider (count me secondary pLast sLast rLast : N) :
  count ≠ 0 → me = count → secondary < count →
  delayTable count me secondary pLast sLast rLast = (2, true).
Proof.
  intros Hcount -> Hsec. unfold delayTable.
  pose proof (N.mod_lt pLast count Hcount).
  pose proof (N.mod_lt sLast count Hcount).
  repeat match goal with
         | |- context [?x =? ?y] => destruct (N.eqb_spec x y)
         end; simpl; try done; lia.
Qed.
End Schedule.

Lemma signers_lookup_nonempty (snap : Snapshot) (k : nat) (a : common.Address) :
  signers snap !! k = Some a → Signers snap ≠ ∅.
Proof.
  intros Hk Hempty. by rewrite (signerCount_empty snap Hempty) in Hk.
Qed.

(** C7: with at least one signer, [computeDelay] returns a delay of 0, 1 or
    2, and asks for the wiggle exactly when the delay is 2, for every
    caller, block number and order of iteration over the recent signers. *)
Theorem computeDelay_tiers (snap : Snapshot) (signer : common.Address)
    (number : N) (oPrimary oSecondary oReplaced : list (N * common.Address)) :
  Signers snap ≠ ∅ →
  ∃ delay wiggle,
    computeDelay snap signer number oPrimary oSecondary oReplaced
    = Ok (delay, wiggle)
    ∧ (delay = 0 ∨ delay = 1 ∨ delay = 2)
    ∧ (wiggle = true ↔ delay = 2).
Proof.
  intros Hne.
  destruct (computeDelay_table snap signer number oPrimary oSecondary
              oReplaced Hne) as (p & q & r & _ & _ & _ & ->).
  destruct (delayTable_tiers (signerCount snap)
              (uint64.of_int (offset snap signer))
              (secondarySlot snap number) (lastSlot_range p oPrimary)
              (lastSlot_range q oSecondary) (lastSlot_range r oReplaced))
    as (delay & wiggle & -> & Hdelay & Hwiggle).
  by exists delay, wiggle.
Qed.

Lemma computeDelay_tiers_witness :
  Signers Sample.four ≠ ∅
  ∧ ∃ delay wiggle,
      computeDelay Sample.four Sample.a3 101 [] [] [] = Ok (delay, wiggle)
      ∧ (delay = 0 ∨ delay = 1 ∨ delay = 2)
      ∧ (wiggle = true ↔ delay = 2).
Proof.
  assert (Hne : Signers Sample.four ≠ ∅) by decide_by_compute.
  split; [exact Hne|].
  exact (computeDelay_tiers Sample.four Sample.a3 101 [] [] [] Hne).
Defined.

(** The path of the displaced signer, on the results of the two calls of
    [lastSlot]: when [lastSlot] returns a nonzero block number [b] for the
    primary slot, returns 0 for the displaced slot [k = b mod signerCount],
    and the caller is the signer of slot [k], [computeDelay] returns
    (0, false). *)
Theorem computeDelay_displaced (snap : Snapshot) (signer : common.Address)
    (number b : N) (oPrimary oSecondary oReplaced : list (N * common.Address)) :
  lastSlot snap (primarySlot snap number) oPrimary = Ok b →
  b ≠ 0 →
  lastSlot snap (b mod signerCount snap) oReplaced = Ok 0 →
  signers snap !! N.to_nat (b mod signerCount snap) = Some signer →
  computeDelay snap signer number oPrimary oSecondary oReplaced
  = Ok (0, false).
Proof.
  intros Hprimary Hb Hreplaced Hcaller.
  pose proof (signers_lookup_nonempty snap _ _ Hcaller) as Hne.
  destruct (computeDelay_table snap signer number oPrimary oSecondary
              oReplaced Hne) as (p & q & r & Hp & _ & Hr & ->).
  unfold lastSlot in Hprimary, Hreplaced.
  rewrite Hp in Hprimary. injection Hprimary as Hprimary.
  rewrite Hprimary in *.
  rewrite Hcaller in Hr, Hreplaced. injection Hr as <-.
  injection Hreplaced as Hreplaced.
  rewrite Hreplaced, (offset_slot snap signer _ Hcaller), of_int_len.
  rewrite N2Nat.id. unfold delayTable.
  destruct (N.eqb_spec b 0) as [?|_]; [done|]. simpl.
  by rewrite N.eqb_refl.
Qed.

Lemma computeDelay_displaced_witness :
  lastSlot Sample.displaced (primarySlot Sample.displaced 5) [(4, Sample.a2)]
  = Ok 4
  ∧ 4 ≠ 0
  ∧ lastSlot Sample.displaced (4 mod signerCount Sample.displaced)
      [(4, Sample.a2)] = Ok 0
  ∧ signers Sample.displaced
      !! N.to_nat (4 mod signerCount Sample.displaced) = Some Sample.a1
  ∧ computeDelay Sample.displaced Sample.a1 5
      [(4, Sample.a2)] [(4, Sample.a2)] [(4, Sample.a2)] = Ok (0, false).
Proof.
  assert (H1 : lastSlot Sample.displaced (primarySlot Sample.displaced 5)
                 [(4, Sample.a2)] = Ok 4) by (vm_compute; reflexivity).
  assert (H2 : 4 ≠ 0) by lia.
  assert (H3 : lastSlot Sample.displaced (4 mod signerCount Sample.displaced)
                 [(4, Sample.a2)] = Ok 0) by (vm_compute; reflexivity).
  assert (H4 : signers Sample.displaced
                 !! N.to_nat (4 mod signerCount Sample.displaced)
               = Some Sample.a1) by (vm_compute; reflexivity).
  repeat (split; [assumption|]).
  exact (computeDelay_displaced Sample.displaced Sample.a1 5 4
           [(4, Sample.a2)] [(4, Sample.a2)] [(4, Sample.a2)] H1 H2 H3 H4).
Defined.

(** A signer without a retained block gets 0 from [lastSlot], and a signer
    with one retained block gets that block, in every order of iteration. *)
Lemma lastSlot_range_none (s : Snapshot) (signer : common.Address)
    (order : list (N * common.Address)) :
  range_order (Recents s) order →
  (∀ bn, Recents s !! bn ≠ Some signer) →
  lastSlot_range signer order = 0.
Proof.
  intros Horder Hnone.
  destruct (lastSlot_range_spec signer order) as [Hin|[Hzero _]]; [|done].
  apply (elem_of_range_order s order) in Hin; [|done].
  by destruct (Hnone _ Hin).
Qed.

Lemma lastSlot_range_only (s : Snapshot) (signer : common.Address) (b : N)
    (order : list (N * common.Address)) :
  range_order (Recents s) order →
  Recents s !! b = Some signer →
  (∀ bn, Recents s !! bn = Some signer → bn = b) →
  lastSlot_range signer order = b.
Proof.
  intros Horder Hb Honly.
  destruct (lastSlot_range_spec signer order) as [Hin|[_ Hno]].
  - apply (elem_of_range_order s order) in Hin; [|done]. by apply Honly.
  - exfalso. apply (Hno b). by apply (elem_of_range_order s order).
Qed.

(** C8, as stated, fails when the signer of the primary slot is the
    recorded producer of more than one retained block.  In
    [Sample.twoBlocks] block 5 is in turn for slot 1, whose signer [a2] has
    the retained block 6 (and block 4); the displaced slot
    [6 mod 4 = 2] is that of [a3], which has no retained block.  When the
    iteration over [Recents] meets block 4 first, the caller [a3] gets
    (1, false) and not (0, false). *)
Lemma computeDelay_displaced_by_order :
  signers Sample.twoBlocks !! N.to_nat (primarySlot Sample.twoBlocks 5)
  = Some Sample.a2
  ∧ Recents Sample.twoBlocks !! 6 = Some Sample.a2
  ∧ 6 mod signerCount Sample.twoBlocks = 2
  ∧ signers Sample.twoBlocks !! N.to_nat 2 = Some Sample.a3
  ∧ (∀ bn, Recents Sample.twoBlocks !! bn = Some Sample.a3 → False)
  ∧ lastSlot Sample.twoBlocks 2 [(4, Sample.a2); (6, Sample.a2)] = Ok 0
  ∧ range_order (Recents Sample.twoBlocks) [(4, Sample.a2); (6, Sample.a2)]
  ∧ computeDelay Sample.twoBlocks Sample.a3 5
      [(4, Sample.a2); (6, Sample.a2)] [(4, Sample.a2); (6, Sample.a2)]
      [(4, Sample.a2); (6, Sample.a2)]
    = Ok (1, false).
Proof.
  split; [by vm_compute|]. split; [by vm_compute|].
  split; [by vm_compute|]. split; [by vm_compute|].
  split.
  { intros bn Hbn. unfold Sample.twoBlocks in Hbn. simpl in Hbn.
    apply lookup_insert_Some in Hbn as [[_ Hbn]|[_ Hbn]]; [done|].
    by apply lookup_singleton_Some in Hbn as [_ Hbn]. }
  split; [by vm_compute|].
  split; [|by vm_compute].
  assert (Hlist : map_to_list (Recents Sample.twoBlocks)
                  = [(6, Sample.a2); (4, Sample.a2)]) by (vm_compute; done).
  unfold range_order. rewrite Hlist. apply Permutation_swap.
Qed.

(** C8, amended: for every snapshot and block number where the signer of
    the primary slot is the recorded producer of exactly one retained block,
    whose number [b] is nonzero, the signer of the displaced slot
    [k = b mod signerCount] is the recorded producer of no retained block,
    and the caller is the signer of slot [k], [computeDelay] returns
    (0, false) for that caller, in every order of iteration over
    [Recents]. *)
Theorem computeDelay_reclaims_turn (snap : Snapshot)
    (primary signer : common.Address) (number b : N)
    (oPrimary oSecondary oReplaced : list (N * common.Address)) :
  signers snap !! N.to_nat (primarySlot snap number) = Some primary →
  Recents snap !! b = Some primary →
  (∀ bn, Recents snap !! bn = Some primary → bn = b) →
  b ≠ 0 →
  signers snap !! N.to_nat (b mod signerCount snap) = Some signer →
  (∀ bn, Recents snap !! bn ≠ Some signer) →
  range_order (Recents snap) oPrimary →
  range_order (Recents snap) oReplaced →
  lastSlot snap (primarySlot snap number) oPrimary = Ok b
  ∧ lastSlot snap (b mod signerCount snap) oReplaced = Ok 0
  ∧ computeDelay snap signer number oPrimary oSecondary oReplaced
    = Ok (0, false).
Proof.
  intros Hprimary Hb Honly Hnonzero Hcaller Hnone HoP HoR.
  assert (HlastP : lastSlot snap (primarySlot snap number) oPrimary = Ok b).
  { unfold lastSlot. rewrite Hprimary. f_equal.
    by apply (lastSlot_range_only snap). }
  assert (HlastR : lastSlot snap (b mod signerCount snap) oReplaced = Ok 0).
  { unfold lastSlot. rewrite Hcaller. f_equal.
    by apply (lastSlot_range_none snap). }
  split; [done|]. split; [done|].
  by apply (computeDelay_displaced snap signer number b).
Qed.

Lemma computeDelay_reclaims_turn_witness :
  signers Sample.displaced !! N.to_nat (primarySlot Sample.displaced 5)
  = Some Sample.a2
  ∧ Recents Sample.displaced !! 4 = Some Sample.a2
  ∧ (∀ bn, Recents Sample.displaced !! bn = Some Sample.a2 → bn = 4)
  ∧ signers Sample.displaced !! N.to_nat (4 mod signerCount Sample.displaced)
    = Some Sample.a1
  ∧ (∀ bn, Recents Sample.displaced !! bn = Some Sample.a1 → False)
  ∧ range_order (Recents Sample.displaced) [(4, Sample.a2)]
  ∧ lastSlot Sample.displaced (primarySlot Sample.displaced 5)
      [(4, Sample.a2)] = Ok 4
  ∧ lastSlot Sample.displaced (4 mod signerCount Sample.displaced)
      [(4, Sample.a2)] = Ok 0
  ∧ computeDelay Sample.displaced Sample.a1 5
      [(4, Sample.a2)] [(4, Sample.a2)] [(4, Sample.a2)] = Ok (0, false).
Proof.
  assert (H1 : signers Sample.displaced
                 !! N.to_nat (primarySlot Sample.displaced 5)
               = Some Sample.a2) by (vm_compute; reflexivity).
  assert (H2 : Recents Sample.displaced !! 4 = Some Sample.a2)
    by (vm_compute; reflexivity).
  assert (H3 : ∀ bn, Recents Sample.displaced !! bn = Some Sample.a2 →
                     bn = 4).
  { intros bn Hbn. unfold Sample.displaced in Hbn. simpl in Hbn.
    by apply lookup_singleton_Some in Hbn as [<- _]. }
  assert (H4 : 4 ≠ 0) by lia.
  assert (H5 : signers Sample.displaced
                 !! N.to_nat (4 mod signerCount Sample.displaced)
               = Some Sample.a1) by (vm_compute; reflexivity).
  assert (H6 : ∀ bn, Recents Sample.displaced !! bn ≠ Some Sample.a1).
  { intros bn Hbn. unfold Sample.displaced in Hbn. simpl in Hbn.
    by apply lookup_singleton_Some in Hbn as [_ Hbn]. }
  assert (H7 : range_order (Recents Sample.displaced) [(4, Sample.a2)])
    by (vm_compute; reflexivity).
  split; [exact H1|]. split; [exact H2|]. split; [exact H3|].
  split; [exact H5|]. split; [exact H6|]. split; [exact H7|].
  exact (computeDelay_reclaims_turn Sample.displaced Sample.a2 Sample.a1 5 4
           [(4, Sample.a2)] [(4, Sample.a2)] [(4, Sample.a2)]
           H1 H2 H3 H4 H5 H6 H7 H7).
Defined.

(** C9: with at least one signer, a caller that is not a signer gets
    (2, true): [offset] returns the signer count for it, and every slot it
    is compared with is below the signer count. *)
Theorem computeDelay_non_signer (snap : Snapshot) (signer : common.Address)
    (number : N) (oPrimary oSecondary oReplaced : list (N * common.Address)) :
  Signers snap ≠ ∅ →
  signer ∉ Signers snap →
  uint64.of_int (offset snap signer) = signerCount snap
  ∧ primarySlot snap number < signerCount snap
  ∧ secondarySlot snap number < signerCount snap
  ∧ computeDelay snap signer number oPrimary oSecondary oReplaced
    = Ok (2, true).
Proof.
  intros Hne Hout.
  assert (Hoffset : uint64.of_int (offset snap signer) = signerCount snap).
  { by rewrite (offset_not_signer snap signer Hout). }
  split; [done|].
  split; [by apply primarySlot_lt|]. split; [by apply secondarySlot_lt|].
  destruct (computeDelay_table snap signer number oPrimary oSecondary
              oReplaced Hne) as (p & q & r & _ & _ & _ & ->).
  f_equal. apply delayTable_outsider; [|done|].
  - by apply signerCount_nonzero.
  - by apply secondarySlot_lt.
Qed.

Lemma computeDelay_non_signer_witness :
  Signers Sample.displaced ≠ ∅
  ∧ (7 ∉ Signers Sample.displaced)
  ∧ uint64.of_int (offset Sample.displaced 7) = signerCount Sample.displaced
  ∧ primarySlot Sample.displaced 5 < signerCount Sample.displaced
  ∧ secondarySlot Sample.displaced 5 < signerCount Sample.displaced
  ∧ computeDelay Sample.displaced 7 5
      [(4, Sample.a2)] [(4, Sample.a2)] [(4, Sample.a2)] = Ok (2, true).
Proof.
  assert (Hne : Signers Sample.displaced ≠ ∅) by decide_by_compute.
  assert (Hout : 7 ∉ Signers Sample.displaced) by decide_by_compute.
  repeat (split; [assumption|]).
  exact (computeDelay_non_signer Sample.displaced 7 5
           [(4, Sample.a2)] [(4, Sample.a2)] [(4, Sample.a2)] Hne Hout).
Defined.

(** C10: with at least one signer the signer count is not zero, the primary
    slot, the secondary slot and every replaced slot are below the signer
    count, [lastSlot] returns for every slot below the signer count, and
    [computeDelay] returns; with no signer at all [computeDelay] panics on
    the division by the signer count. *)
Theorem computeDelay_total (snap : Snapshot) (signer : common.Address)
    (number : N) (oPrimary oSecondary oReplaced : list (N * common.Address)) :
  (Signers snap ≠ ∅ →
   signerCount snap ≠ 0
   ∧ primarySlot snap number < signerCount snap
   ∧ secondarySlot snap number < signerCount snap
   ∧ (∀ bn, bn mod signerCount snap < signerCount snap)
   ∧ (∀ slot order, slot < signerCount snap →
        ∃ bn, lastSlot snap slot order = Ok bn)
   ∧ ∃ r, computeDelay snap signer number oPrimary oSecondary oReplaced
          = Ok r)
  ∧ (Signers snap = ∅ →
     computeDelay snap signer number oPrimary oSecondary oReplaced
     = Panic DivideByZero).
Proof.
  split.
  - intros Hne.
    split; [by apply signerCount_nonzero|].
    split; [by apply primarySlot_lt|].
    split; [by apply secondarySlot_lt|].
    split; [intros bn; by apply replacedSlot_lt|].
    split.
    + intros slot order Hslot.
      destruct (slot_signer snap slot Hslot) as (a & _ & Hlast).
      exists (lastSlot_range a order). apply Hlast.
    + destruct (computeDelay_table snap signer number oPrimary oSecondary
                  oReplaced Hne) as (p & q & r & _ & _ & _ & ->).
      by eexists.
  - intros Hempty. unfold computeDelay.
    by rewrite (signerCount_empty snap Hempty).
Qed.

Lemma computeDelay_total_witness :
  Signers Sample.four ≠ ∅
  ∧ Signers Sample.nobody = ∅
  ∧ (∃ r, computeDelay Sample.four Sample.a1 101 [] [] [] = Ok r)
  ∧ computeDelay Sample.nobody Sample.a1 101 [] [] [] = Panic DivideByZero.
Proof.
  assert (Hne : Signers Sample.four ≠ ∅) by decide_by_compute.
  assert (Hempty : Signers Sample.nobody = ∅) by reflexivity.
  repeat (split; [assumption|]).
  split.
  - destruct (computeDelay_total Sample.four Sample.a1 101 [] [] [])
      as [Hruns _].
    apply (Hruns Hne).
  - destruct (computeDelay_total Sample.nobody Sample.a1 101 [] [] [])
      as [_ Hpanics].
    apply (Hpanics Hempty).
Defined.

(** * Further properties of the code *)

(** ** The tally methods *)

(** [uncastSuper] returns true exactly when the candidate has a tally of
    the direction given, whatever the registry says about the candidate, and
    a call that returns false leaves the snapshot as it was. *)
Theorem uncastSuper_outcome (s : Snapshot) (c : common.Address) (d : bool) :
  ((uncastSuper s c d).1 = true
   ↔ ∃ t, SuperTally s !! c = Some t ∧ SuperTally.Authorize t = d)
  ∧ ((uncastSuper s c d).1 = false → (uncastSuper s c d).2 = s).
Proof.
  unfold uncastSuper. destruct (SuperTally s !! c) as [t|] eqn:Ht.
  - destruct (eqb_spec (SuperTally.Authorize t) d) as [Hd|Hd]; simpl.
    + split.
      * split; [eauto|]. intros _. by destruct (_ <? _)%Z.
      * by destruct (_ <? _)%Z.
    + split; [|done]. split; [done|]. intros (t' & [= <-] & Hd'). done.
  - simpl. split; [|done]. split; [done|]. by intros (t' & [=] & _).
Qed.

(** A vote cast on an existing tally of the same direction is taken back by
    [uncastSuper]: the snapshot is the one before the cast. *)
Theorem uncastSuper_castSuper (s : Snapshot) (c : common.Address) (d : bool)
    (t : SuperTally.t) :
  validVoteSuper s c d = true →
  SuperTally s !! c = Some t →
  SuperTally.Authorize t = d →
  (1 ≤ SuperTally.Votes t < int.max)%Z →
  (castSuper s c d).1 = true
  ∧ uncastSuper (castSuper s c d).2 c d = (true, s).
Proof.
  intros Hvalid Ht Hd Hvotes. unfold castSuper. rewrite Hvalid, Ht. simpl.
  split; [done|]. unfold uncastSuper. simpl. rewrite lookup_insert_eq. simpl.
  rewrite Hd, eqb_reflx. simpl. unfold int.add.
  rewrite int_wrap_id by (unfold int.max in *; lia).
  destruct (Z.ltb_spec 1 (SuperTally.Votes t + 1)) as [_|?]; [|lia].
  rewrite int_wrap_id by (unfold int.max in *; lia).
  unfold set_SuperTally. simpl. rewrite insert_insert_eq.
  replace (SuperTally.Votes t + 1 + -1)%Z with (SuperTally.Votes t) by lia.
  rewrite <- Hd. destruct t as [auth votes]. simpl.
  rewrite insert_id by done. by destruct s.
Qed.

Lemma uncastSuper_castSuper_witness :
  validVoteSuper Sample.voted Sample.a3 true = true
  ∧ SuperTally Sample.voted !! Sample.a3 = Some (SuperTally.mk true 2)
  ∧ (1 ≤ 2 < int.max)%Z
  ∧ (castSuper Sample.voted Sample.a3 true).1 = true
  ∧ uncastSuper (castSuper Sample.voted Sample.a3 true).2 Sample.a3 true
    = (true, Sample.voted).
Proof.
  assert (H1 : validVoteSuper Sample.voted Sample.a3 true = true)
    by (vm_compute; reflexivity).
  assert (H2 : SuperTally Sample.voted !! Sample.a3
               = Some (SuperTally.mk true 2)) by (vm_compute; reflexivity).
  assert (H3 : (1 ≤ SuperTally.Votes (SuperTally.mk true 2) < int.max)%Z)
    by (vm_compute; split; [discriminate|reflexivity]).
  do 3 (split; [assumption|]).
  exact (uncastSuper_castSuper Sample.voted Sample.a3 true
           (SuperTally.mk true 2) H1 H2 eq_refl H3).
Defined.

(** And the other way round: a vote taken back from a tally and cast again
    gives the snapshot before, also when taking it back deleted the tally. *)
Theorem castSuper_uncastSuper (s : Snapshot) (c : common.Address) (d : bool)
    (t : SuperTally.t) :
  validVoteSuper s c d = true →
  SuperTally s !! c = Some t →
  SuperTally.Authorize t = d →
  (1 ≤ SuperTally.Votes t ≤ int.max)%Z →
  (uncastSuper s c d).1 = true
  ∧ castSuper (uncastSuper s c d).2 c d = (true, s).
Proof.
  intros Hvalid Ht Hd Hvotes. unfold uncastSuper. rewrite Ht, Hd, eqb_reflx.
  simpl. destruct (Z.ltb_spec 1 (SuperTally.Votes t)) as [Hmore|Hone]; simpl.
  - split; [done|]. unfold castSuper.
    rewrite (validVoteSuper_registry _ s) by done. rewrite Hvalid. simpl.
    rewrite lookup_insert_eq. simpl. unfold int.add.
    rewrite (int_wrap_id (SuperTally.Votes t + -1))
      by (unfold int.max in *; lia).
    rewrite int_wrap_id by (unfold int.max in *; lia).
    unfold set_SuperTally. simpl. rewrite insert_insert_eq.
    replace (SuperTally.Votes t + -1 + 1)%Z with (SuperTally.Votes t) by lia.
    rewrite <- Hd. destruct t as [auth votes]. simpl.
    rewrite insert_id by done. by destruct s.
  - split; [done|]. unfold castSuper.
    rewrite (validVoteSuper_registry _ s) by done. rewrite Hvalid. simpl.
    rewrite lookup_delete_eq. unfold set_SuperTally. simpl.
    rewrite insert_delete_eq.
    assert (Heq : SuperTally.mk d 1 = t).
    { destruct t as [auth votes]. simpl in *. f_equal; [done|lia]. }
    rewrite Heq, insert_id by done. by destruct s.
Qed.

Lemma castSuper_uncastSuper_witness :
  validVoteSuper Sample.voted Sample.a1 false = true
  ∧ SuperTally Sample.voted !! Sample.a1 = Some (SuperTally.mk false 1)
  ∧ (1 ≤ 1 ≤ int.max)%Z
  ∧ (uncastSuper Sample.voted Sample.a1 false).1 = true
  ∧ castSuper (uncastSuper Sample.voted Sample.a1 false).2 Sample.a1 false
    = (true, Sample.voted).
Proof.
  assert (H1 : validVoteSuper Sample.voted Sample.a1 false = true)
    by (vm_compute; reflexivity).
  assert (H2 : SuperTally Sample.voted !! Sample.a1
               = Some (SuperTally.mk false 1)) by (vm_compute; reflexivity).
  assert (H3 : (1 ≤ SuperTally.Votes (SuperTally.mk false 1) ≤ int.max)%Z)
    by (vm_compute; split; discriminate).
  do 3 (split; [assumption|]).
  exact (castSuper_uncastSuper Sample.voted Sample.a1 false
           (SuperTally.mk false 1) H1 H2 eq_refl H3).
Defined.

(** [castSuper] does not look at the direction of a tally that exists: a
    valid vote on a tally of the other direction counts as one more vote of
    that other direction, and [uncastSuper] then refuses to take it back. *)
Theorem castSuper_other_direction (s : Snapshot) (c : common.Address)
    (d : bool) (t : SuperTally.t) :
  validVoteSuper s c d = true →
  SuperTally s !! c = Some t →
  SuperTally.Authorize t = negb d →
  (castSuper s c d).1 = true
  ∧ SuperTally (castSuper s c d).2 !! c
    = Some (SuperTally.mk (negb d) (int.add (SuperTally.Votes t) 1))
  ∧ uncastSuper (castSuper s c d).2 c d = (false, (castSuper s c d).2).
Proof.
  intros Hvalid Ht Hd. unfold castSuper. rewrite Hvalid, Ht. simpl.
  rewrite lookup_insert_eq, Hd. split; [done|]. split; [done|].
  unfold uncastSuper. simpl. rewrite lookup_insert_eq. simpl.
  by destruct d.
Qed.

Lemma castSuper_other_direction_witness :
  validVoteSuper Sample.stale Sample.a3 true = true
  ∧ SuperTally Sample.stale !! Sample.a3 = Some (SuperTally.mk false 1)
  ∧ (castSuper Sample.stale Sample.a3 true).1 = true
  ∧ SuperTally (castSuper Sample.stale Sample.a3 true).2 !! Sample.a3
    = Some (SuperTally.mk false (int.add 1 1))
  ∧ uncastSuper (castSuper Sample.stale Sample.a3 true).2 Sample.a3 true
    = (false, (castSuper Sample.stale Sample.a3 true).2).
Proof.
  assert (H1 : validVoteSuper Sample.stale Sample.a3 true = true)
    by (vm_compute; reflexivity).
  assert (H2 : SuperTally Sample.stale !! Sample.a3
               = Some (SuperTally.mk false 1)) by (vm_compute; reflexivity).
  do 2 (split; [assumption|]).
  exact (castSuper_other_direction Sample.stale Sample.a3 true
           (SuperTally.mk false 1) H1 H2 eq_refl).
Defined.

(** The two methods touch the tally of their candidate and nothing else:
    the configuration, the block, the registry, the recent signers and the
    tallies of every other candidate stay as they are. *)
Theorem tally_methods_frame (s : Snapshot) (c : common.Address) (d : bool) :
  let after (s' : Snapshot) :=
    config s' = config s ∧ Number s' = Number s ∧ Hash s' = Hash s
    ∧ Signers s' = Signers s ∧ SuperSigners s' = SuperSigners s
    ∧ Recents s' = Recents s
    ∧ ∀ c', c' ≠ c → SuperTally s' !! c' = SuperTally s !! c' in
  after (castSuper s c d).2 ∧ after (uncastSuper s c d).2.
Proof.
  simpl. split.
  - unfold castSuper. destruct (negb _); [done|].
    destruct (SuperTally s !! c); simpl; repeat split; intros c' Hc';
      by rewrite lookup_insert_ne.
  - unfold uncastSuper. destruct (SuperTally s !! c) as [t|]; [|done].
    destruct (negb _); [done|].
    destruct (_ <? _)%Z; simpl; repeat split; intros c' Hc'.
    + by rewrite lookup_insert_ne.
    + by rewrite lookup_delete_ne.
Qed.

(** [uncastSuper] keeps every vote count between 1 and the largest [int]:
    it deletes a tally instead of leaving it with no vote.  [castSuper]
    keeps the counts so as long as the count it adds to is not the largest
    [int]. *)
Theorem tally_methods_counts (s : Snapshot) (c : common.Address) (d : bool) :
  tallyCounts s →
  tallyCounts (uncastSuper s c d).2
  ∧ ((∀ t, SuperTally s !! c = Some t → (SuperTally.Votes t < int.max)%Z) →
     tallyCounts (castSuper s c d).2).
Proof.
  intros Hcounts. split.
  - unfold uncastSuper. destruct (SuperTally s !! c) as [t|] eqn:Ht; [|done].
    destruct (negb _); [done|].
    pose proof (Hcounts c t Ht) as Hrange.
    destruct (Z.ltb_spec 1 (SuperTally.Votes t)); intros c' t'; simpl.
    + destruct (decide (c = c')) as [<-|Hne].
      * rewrite lookup_insert_eq. intros [= <-]. simpl. unfold int.add.
        rewrite int_wrap_id; unfold int.max in *; lia.
      * rewrite lookup_insert_ne by done. apply Hcounts.
    + destruct (decide (c = c')) as [<-|Hne].
      * by rewrite lookup_delete_eq.
      * rewrite lookup_delete_ne by done. apply Hcounts.
  - intros Hroom. unfold castSuper. destruct (negb _); [done|].
    destruct (SuperTally s !! c) as [t|] eqn:Ht; intros c' t'; simpl.
    + destruct (decide (c = c')) as [<-|Hne].
      * rewrite lookup_insert_eq. intros [= <-]. simpl. unfold int.add.
        pose proof (Hcounts c t Ht). pose proof (Hroom t eq_refl).
        rewrite int_wrap_id; unfold int.max in *; lia.
      * rewrite lookup_insert_ne by done. apply Hcounts.
    + destruct (decide (c = c')) as [<-|Hne].
      * rewrite lookup_insert_eq. intros [= <-]. simpl.
        unfold int.max. lia.
      * rewrite lookup_insert_ne by done. apply Hcounts.
Qed.

Lemma tallyCounts_voted : tallyCounts Sample.voted.
Proof.
  intros c t Hc. unfold Sample.voted in Hc. simpl in Hc.
  apply lookup_insert_Some in Hc as [[_ <-]|[_ Hc]];
    [vm_compute; split; discriminate|].
  apply lookup_singleton_Some in Hc as [_ <-].
  vm_compute; split; discriminate.
Qed.

Lemma tally_methods_counts_witness :
  tallyCounts Sample.voted
  ∧ tallyCounts (uncastSuper Sample.voted Sample.a3 true).2
  ∧ tallyCounts (castSuper Sample.voted Sample.a3 true).2.
Proof.
  split; [exact tallyCounts_voted|].
  destruct (tally_methods_counts Sample.voted Sample.a3 true
              tallyCounts_voted) as [Hun Hcast].
  split; [exact Hun|]. apply Hcast.
  intros t Ht. pose proof (tallyCounts_voted Sample.a3 t Ht) as Hrange.
  assert (Ht' : SuperTally Sample.voted !! Sample.a3
                = Some (SuperTally.mk true 2)) by (vm_compute; reflexivity).
  rewrite Ht' in Ht. injection Ht as <-. vm_compute. reflexivity.
Defined.

(** ** The threshold at its edges *)

(** With no super signer at all, one vote is a supermajority; and more
    votes never undo one: [hasPassedSuper] is monotone in the votes. *)
Theorem hasPassedSuper_edges (s : Snapshot) (t1 t2 : SuperTally.t) (bn : N) :
  (SuperSigners s = ∅ →
   (hasPassedSuper s t1 bn = true ↔ (1 ≤ SuperTally.Votes t1)%Z))
  ∧ ((SuperTally.Votes t1 ≤ SuperTally.Votes t2)%Z →
     hasPassedSuper s t1 bn = true → hasPassedSuper s t2 bn = true).
Proof.
  split.
  - intros Hempty. unfold hasPassedSuper. rewrite Hempty, size_empty.
    change (int.quot (int.mul (int.len 0) 3) 4) with 0%Z.
    destruct (Z.ltb_spec 0 (SuperTally.Votes t1)); split; (done || lia).
  - intros Hle. unfold hasPassedSuper.
    destruct (Z.ltb_spec (int.quot (int.mul (int.len (size (SuperSigners s))) 3) 4)
                (SuperTally.Votes t1)); [|done].
    intros _.
    destruct (Z.ltb_spec (int.quot (int.mul (int.len (size (SuperSigners s))) 3) 4)
                (SuperTally.Votes t2)); [done|lia].
Qed.

(** While the product [3 * S] is exact and there is a super signer, the
    votes of all [S] super signers pass, and the votes of half of them or
    fewer do not. *)
Theorem hasPassedSuper_quorum (s : Snapshot) (tally : SuperTally.t) (bn : N) :
  let S := int.len (size (SuperSigners s)) in
  (1 ≤ S)%Z → (3 * S ≤ int.max)%Z →
  (SuperTally.Votes tally = S → hasPassedSuper s tally bn = true)
  ∧ ((2 * SuperTally.Votes tally ≤ S)%Z → hasPassedSuper s tally bn = false).
Proof.
  intros S Hone Hfit. rewrite hasPassedSuper_exact by done.
  unfold threshold. fold (int.len (size (SuperSigners s))). fold S.
  split.
  - intros ->. apply bool_decide_eq_true_2.
    apply Z.div_lt_upper_bound; lia.
  - intros Hhalf. apply bool_decide_eq_false_2.
    assert (SuperTally.Votes tally ≤ 3 * S / 4)%Z; [|lia].
    apply Z.div_le_lower_bound; lia.
Qed.

Lemma hasPassedSuper_quorum_witness :
  (1 ≤ int.len (size (SuperSigners Sample.allSuper)))%Z
  ∧ (3 * int.len (size (SuperSigners Sample.allSuper)) ≤ int.max)%Z
  ∧ hasPassedSuper Sample.allSuper (SuperTally.mk true 4) 100 = true
  ∧ hasPassedSuper Sample.allSuper (SuperTally.mk true 2) 100 = false.
Proof.
  assert (H1 : (1 ≤ int.len (size (SuperSigners Sample.allSuper)))%Z)
    by (vm_compute; discriminate).
  assert (H2 : (3 * int.len (size (SuperSigners Sample.allSuper))
                ≤ int.max)%Z) by (vm_compute; discriminate).
  do 2 (split; [assumption|]).
  split.
  - apply (hasPassedSuper_quorum Sample.allSuper (SuperTally.mk true 4) 100
             H1 H2). vm_compute. reflexivity.
  - apply (hasPassedSuper_quorum Sample.allSuper (SuperTally.mk true 2) 100
             H1 H2). vm_compute. discriminate.
Defined.

(** ** The override on every path *)

Lemma snapshot_ext (s1 s2 : Snapshot) :
  config s1 = config s2 → Number s1 = Number s2 → Hash s1 = Hash s2 →
  Signers s1 = Signers s2 → SuperSigners s1 = SuperSigners s2 →
  SuperTally s1 = SuperTally s2 → Recents s1 = Recents s2 → s1 = s2.
Proof.
  destruct s1, s2. simpl. by intros -> -> -> -> -> -> ->.
Qed.

Lemma uint64_wrap_lt (x : N) : uint64.wrap x < uint64.modulus.
Proof. unfold uint64.wrap. by apply N.mod_lt. Qed.

(** The block the activation is checked at, [nextNumber - 1], is the
    header's own number, also when [nextNumber] wrapped to 0. *)
Lemma nextNumber_pred (headerNumber : N) :
  uint64.sub (nextNumber headerNumber) 1 = Uint64 headerNumber.
Proof.
  unfold nextNumber, Uint64, uint64.sub, uint64.add.
  pose proof (uint64_wrap_lt headerNumber) as Hlt.
  set (x := uint64.wrap headerNumber) in *.
  assert (Hone : uint64.wrap 1 = 1) by reflexivity.
  rewrite Hone. unfold uint64.wrap at 2 1.
  unfold uint64.modulus in *.
  destruct (decide (x + 1 < 2 ^ 64)) as [Hsmall|Hlarge].
  - rewrite (N.mod_small (x + 1)) by done.
    replace (x + 1 + (2 ^ 64 - 1)) with (x + 1 * 2 ^ 64) by lia.
    rewrite N.Div0.mod_add. by apply N.mod_small.
  - assert (Hx : x + 1 = 2 ^ 64) by lia.
    rewrite Hx, N.Div0.mod_same. simpl (0 + _).
    rewrite N.mod_small by lia. lia.
Qed.

Lemma removeSigner_fixed (newSigners : gset N) (s : Snapshot) (a : N) :
  Number (removeSigner newSigners s a) = Number s
  ∧ Hash (removeSigner newSigners s a) = Hash s
  ∧ Recents (removeSigner newSigners s a) = Recents s.
Proof.
  unfold removeSigner. case_bool_decide; [done|].
  simpl. by case_bool_decide.
Qed.

Lemma foldl_removeSigner_fixed (newSigners : gset N) (order : list N)
    (s : Snapshot) :
  Number (foldl (removeSigner newSigners) s order) = Number s
  ∧ Hash (foldl (removeSigner newSigners) s order) = Hash s
  ∧ Recents (foldl (removeSigner newSigners) s order) = Recents s.
Proof.
  revert s. induction order as [|a order IH]; intros s; simpl; [done|].
  destruct (IH (removeSigner newSigners s a)) as (-> & -> & ->).
  apply removeSigner_fixed.
Qed.

Lemma foldl_addSigner_fixed (l : list params.Validator) (s : Snapshot) :
  Number (foldl addSigner s l) = Number s
  ∧ Hash (foldl addSigner s l) = Hash s
  ∧ Recents (foldl addSigner s l) = Recents s.
Proof.
  revert s. induction l as [|v l IH]; intros s; simpl; [done|].
  destruct (IH (addSigner s v)) as (-> & -> & ->).
  unfold addSigner. by destruct (params.Super v); case_bool_decide.
Qed.

(** The snapshot an applied override leaves, field by field. *)
Lemma override_fields (s : Snapshot) (order : list N)
    (nextSigners : list params.Validator) :
  let s' := set_Recents (λ _, ∅)
              (foldl addSigner
                 (foldl (removeSigner (targetSigners nextSigners)) s order)
                 nextSigners) in
  config s' = config s ∧ Number s' = Number s ∧ Hash s' = Hash s
  ∧ Signers s'
    = targetSet nextSigners
      ∪ Signers s ∖ (list_to_set order ∖ targetSet nextSigners)
  ∧ SuperSigners s'
    = targetSuperSet nextSigners
      ∪ SuperSigners s ∖ (list_to_set order ∖ targetSet nextSigners)
  ∧ SuperTally s' = SuperTally s ∧ Recents s' = ∅.
Proof.
  simpl.
  destruct (foldl_addSigner nextSigners
              (foldl (removeSigner (targetSigners nextSigners)) s order))
    as (-> & -> & -> & ->).
  destruct (foldl_addSigner_fixed nextSigners
              (foldl (removeSigner (targetSigners nextSigners)) s order))
    as (-> & -> & _).
  destruct (foldl_removeSigner (targetSigners nextSigners) order s)
    as (-> & -> & -> & ->).
  destruct (foldl_removeSigner_fixed (targetSigners nextSigners) order s)
    as (-> & -> & _).
  by rewrite targetSigners_targetSet.
Qed.

Lemma range_order_set_list_to_set (X : gset N) (order : list N) :
  range_order_set X order → list_to_set order = X.
Proof.
  unfold range_order_set. intros Horder. apply set_eq. intros a.
  rewrite elem_of_list_to_set, Horder. apply elem_of_elements.
Qed.

(** The three ways [applyPallasOverride] can go: it leaves the snapshot as
    it is, it panics, or the override applies. *)
Lemma applyPallasOverride_paths (s : Snapshot) (headerNumber : N) :
  (∀ order, applyPallasOverride s headerNumber order = Ok s)
  ∨ (isPallasActive s (Uint64 headerNumber) = true
     ∧ params.Epoch (config s) = 0
     ∧ ∀ order,
         applyPallasOverride s headerNumber order = Panic DivideByZero)
  ∨ (∃ pallas nextSigners,
       isPallasActive s (uint64.sub (nextNumber headerNumber) 1) = true
       ∧ uint64.rem (nextNumber headerNumber) (params.Epoch (config s)) = Ok 0
       ∧ params.Pallas (config s) = Some pallas
       ∧ params.Validators pallas !! nextNumber headerNumber
         = Some nextSigners).
Proof.
  unfold applyPallasOverride.
  destruct (isPallasActive s (uint64.sub (nextNumber headerNumber) 1))
    eqn:Hactive; [|by left].
  unfold uint64.rem.
  destruct (N.eqb_spec (params.Epoch (config s)) 0) as [Hzero|Hepoch].
  { right. left. by rewrite <- nextNumber_pred. }
  simpl.
  destruct (N.eqb_spec (nextNumber headerNumber mod params.Epoch (config s)) 0)
    as [Hrem|Hrem]; [|by left].
  destruct (params.Pallas (config s)) as [pallas|] eqn:Hpallas.
  - destruct (params.Validators pallas !! nextNumber headerNumber)
      as [nextSigners|] eqn:Hnext; [|by left].
    right. right. exists pallas, nextSigners. by rewrite Hrem.
  - unfold isPallasActive in Hactive. by rewrite Hpallas in Hactive.
Qed.

Lemma override_result_ext (s : Snapshot) (o1 o2 : list N)
    (nextSigners : list params.Validator) :
  (list_to_set o1 : gset N) = list_to_set o2 →
  set_Recents (λ _, ∅)
    (foldl addSigner
       (foldl (removeSigner (targetSigners nextSigners)) s o1) nextSigners)
  = set_Recents (λ _, ∅)
      (foldl addSigner
         (foldl (removeSigner (targetSigners nextSigners)) s o2) nextSigners).
Proof.
  intros Hsame.
  destruct (override_fields s o1 nextSigners)
    as (Hc1 & Hn1 & Hh1 & HS1 & HSS1 & HT1 & HR1).
  destruct (override_fields s o2 nextSigners)
    as (Hc2 & Hn2 & Hh2 & HS2 & HSS2 & HT2 & HR2).
  apply snapshot_ext; congruence.
Qed.

Lemma isPallasActive_config (s1 s2 : Snapshot) (b : N) :
  config s1 = config s2 → isPallasActive s1 b = isPallasActive s2 b.
Proof. unfold isPallasActive. by intros ->. Qed.

(** When [applyPallasOverride], given a header with a block number, does
    nothing, and when it divides by zero: it leaves the snapshot as it is
    when pallas is not active at the header's block; with an epoch length
    other than 0 it leaves the snapshot as it is when the next block does
    not close an epoch and when nothing is scheduled for it; with pallas
    active and an epoch length of 0 it panics on the division. *)
Theorem applyPallasOverride_skips (s : Snapshot) (headerNumber : N)
    (order : list common.Address) :
  (isPallasActive s (Uint64 headerNumber) = false →
   applyPallasOverride s headerNumber order = Ok s)
  ∧ (isPallasActive s (Uint64 headerNumber) = true →
     params.Epoch (config s) = 0 →
     applyPallasOverride s headerNumber order = Panic DivideByZero)
  ∧ (params.Epoch (config s) ≠ 0 →
     nextNumber headerNumber mod params.Epoch (config s) ≠ 0 →
     applyPallasOverride s headerNumber order = Ok s)
  ∧ (params.Epoch (config s) ≠ 0 →
     (∀ pallas, params.Pallas (config s) = Some pallas →
                params.Validators pallas !! nextNumber headerNumber = None) →
     applyPallasOverride s headerNumber order = Ok s).
Proof.
  unfold applyPallasOverride. rewrite nextNumber_pred.
  split; [by intros ->|]. split.
  { intros -> ->. reflexivity. }
  split.
  { intros Hepoch Hrem. destruct (isPallasActive _ _); [|done].
    rewrite rem_Ok by done. simpl.
    by destruct (N.eqb_spec (nextNumber headerNumber
                             mod params.Epoch (config s)) 0). }
  intros Hepoch Hnone. destruct (isPallasActive _ _) eqn:Hactive; [|done].
  rewrite rem_Ok by done. simpl. destruct (_ =? 0); [|done].
  destruct (params.Pallas (config s)) as [pallas|] eqn:Hpallas.
  - by rewrite (Hnone pallas eq_refl).
  - unfold isPallasActive in Hactive. by rewrite Hpallas in Hactive.
Qed.

(** Whatever it does, [applyPallasOverride] keeps the super signers among
    the signers. *)
Theorem applyPallasOverride_keeps_superSubset (s s' : Snapshot)
    (headerNumber : N) (order : list common.Address) :
  range_order_set (Signers s) order →
  superSubset s →
  applyPallasOverride s headerNumber order = Ok s' →
  superSubset s'.
Proof.
  intros Horder Hinv Hrun.
  destruct (applyPallasOverride_paths s headerNumber)
    as [Hskip|[(_ & _ & Hpanic)|(pallas & next & Ha & Hb & Hc & Hd)]].
  - rewrite Hskip in Hrun. by injection Hrun as <-.
  - by rewrite Hpanic in Hrun.
  - destruct (applyPallasOverride_superSubset s headerNumber order pallas
                next Ha Hb Hc Hd Horder Hinv) as (s'' & Hrun' & Hinv').
    rewrite Hrun in Hrun'. by injection Hrun' as ->.
Qed.

Lemma applyPallasOverride_keeps_superSubset_witness :
  range_order_set (Signers Sample.before) [Sample.a1; Sample.a2]
  ∧ superSubset Sample.before
  ∧ ∃ s', applyPallasOverride Sample.before 9 [Sample.a1; Sample.a2] = Ok s'
          ∧ superSubset s'.
Proof.
  assert (Horder : range_order_set (Signers Sample.before)
                     [Sample.a1; Sample.a2])
    by (unfold range_order_set; vm_compute; reflexivity).
  assert (Hinv : superSubset Sample.before)
    by (unfold superSubset; decide_by_compute).
  do 2 (split; [assumption|]).
  eexists. split; [vm_compute; reflexivity|].
  eapply (applyPallasOverride_keeps_superSubset Sample.before _ 9
            [Sample.a1; Sample.a2] Horder Hinv).
  vm_compute. reflexivity.
Defined.

(** The order in which the old signers are ranged over does not show in
    what [applyPallasOverride] returns. *)
Theorem applyPallasOverride_any_order (s : Snapshot) (headerNumber : N)
    (order1 order2 : list common.Address) :
  range_order_set (Signers s) order1 →
  range_order_set (Signers s) order2 →
  applyPallasOverride s headerNumber order1
  = applyPallasOverride s headerNumber order2.
Proof.
  intros H1 H2.
  destruct (applyPallasOverride_paths s headerNumber)
    as [Hskip|[(_ & _ & Hpanic)|(pallas & next & Ha & Hb & Hc & Hd)]].
  - by rewrite !Hskip.
  - by rewrite !Hpanic.
  - rewrite (applyPallasOverride_applies s headerNumber order1 pallas next)
      by done.
    rewrite (applyPallasOverride_applies s headerNumber order2 pallas next)
      by done.
    f_equal. apply override_result_ext.
    by rewrite !(range_order_set_list_to_set (Signers s)).
Qed.

Lemma applyPallasOverride_any_order_witness :
  range_order_set (Signers Sample.before) [Sample.a1; Sample.a2]
  ∧ range_order_set (Signers Sample.before) [Sample.a2; Sample.a1]
  ∧ applyPallasOverride Sample.before 9 [Sample.a1; Sample.a2]
    = applyPallasOverride Sample.before 9 [Sample.a2; Sample.a1].
Proof.
  assert (H1 : range_order_set (Signers Sample.before)
                 [Sample.a1; Sample.a2])
    by (unfold range_order_set; vm_compute; reflexivity).
  assert (H2 : range_order_set (Signers Sample.before)
                 [Sample.a2; Sample.a1]).
  { unfold range_order_set.
    replace (elements (Signers Sample.before)) with [Sample.a1; Sample.a2]
      by (vm_compute; reflexivity).
    apply Permutation_swap. }
  do 2 (split; [assumption|]).
  exact (applyPallasOverride_any_order Sample.before 9
           [Sample.a1; Sample.a2] [Sample.a2; Sample.a1] H1 H2).
Defined.

(** Applying the override of a header a second time changes nothing. *)
Theorem applyPallasOverride_twice (s s' : Snapshot) (headerNumber : N)
    (order order' : list common.Address) :
  range_order_set (Signers s) order →
  applyPallasOverride s headerNumber order = Ok s' →
  range_order_set (Signers s') order' →
  applyPallasOverride s' headerNumber order' = Ok s'.
Proof.
  intros Horder Hrun Horder'.
  destruct (applyPallasOverride_paths s headerNumber)
    as [Hskip|[(_ & _ & Hpanic)|(pallas & next & Ha & Hb & Hc & Hd)]].
  - rewrite Hskip in Hrun. injection Hrun as <-. apply Hskip.
  - by rewrite Hpanic in Hrun.
  - rewrite (applyPallasOverride_applies s headerNumber order pallas next)
      in Hrun by done.
    injection Hrun as Hs'.
    destruct (override_fields s order next)
      as (Hc1 & Hn1 & Hh1 & HS1 & HSS1 & HT1 & HR1).
    rewrite Hs' in Hc1, Hn1, Hh1, HS1, HSS1, HT1, HR1.
    rewrite (range_order_set_list_to_set _ _ Horder), union_retained in HS1.
    rewrite (applyPallasOverride_applies s' headerNumber order' pallas next).
    + f_equal.
      destruct (override_fields s' order' next)
        as (Hc2 & Hn2 & Hh2 & HS2 & HSS2 & HT2 & HR2).
      apply snapshot_ext; try congruence.
      * rewrite HS2, (range_order_set_list_to_set _ _ Horder').
        by rewrite union_retained.
      * rewrite HSS2, (range_order_set_list_to_set _ _ Horder'), HS1.
        rewrite HSS1. set_solver.
    + by rewrite (isPallasActive_config s' s).
    + by rewrite Hc1.
    + by rewrite Hc1.
    + done.
Qed.

Lemma applyPallasOverride_twice_witness :
  range_order_set (Signers Sample.before) [Sample.a1; Sample.a2]
  ∧ ∃ s',
      applyPallasOverride Sample.before 9 [Sample.a1; Sample.a2] = Ok s'
      ∧ range_order_set (Signers s') [Sample.a1; Sample.a3]
      ∧ applyPallasOverride s' 9 [Sample.a1; Sample.a3] = Ok s'.
Proof.
  assert (H1 : range_order_set (Signers Sample.before)
                 [Sample.a1; Sample.a2])
    by (unfold range_order_set; vm_compute; reflexivity).
  split; [assumption|].
  exists (mkSnapshot Sample.cfg1 9 0 {[Sample.a1; Sample.a3]}
            {[Sample.a1; Sample.a3]} ∅ ∅).
  assert (H2 : applyPallasOverride Sample.before 9 [Sample.a1; Sample.a2]
               = Ok (mkSnapshot Sample.cfg1 9 0 {[Sample.a1; Sample.a3]}
                       {[Sample.a1; Sample.a3]} ∅ ∅))
    by (vm_compute; reflexivity).
  assert (H3 : range_order_set
                 (Signers (mkSnapshot Sample.cfg1 9 0
                             {[Sample.a1; Sample.a3]}
                             {[Sample.a1; Sample.a3]} ∅ ∅))
                 [Sample.a1; Sample.a3]).
  { unfold range_order_set. simpl.
    replace (elements ({[Sample.a1; Sample.a3]} : gset N))
      with [Sample.a3; Sample.a1] by (vm_compute; reflexivity).
    apply Permutation_swap. }
  do 2 (split; [assumption|]).
  exact (applyPallasOverride_twice Sample.before _ 9 [Sample.a1; Sample.a2]
           [Sample.a1; Sample.a3] H1 H2 H3).
Defined.

(** The super signers after an applied override, in a snapshot that keeps
    them among the signers: the addresses the list flags super, and the old
    super signers the list still lists, with or without the flag. *)
Theorem applyPallasOverride_super_status (s : Snapshot) (headerNumber : N)
    (order : list common.Address) (pallas : params.PallasConfig)
    (nextSigners : list params.Validator) :
  isPallasActive s (uint64.sub (nextNumber headerNumber) 1) = true →
  uint64.rem (nextNumber headerNumber) (params.Epoch (config s)) = Ok 0 →
  params.Pallas (config s) = Some pallas →
  params.Validators pallas !! nextNumber headerNumber = Some nextSigners →
  range_order_set (Signers s) order →
  superSubset s →
  ∃ s', applyPallasOverride s headerNumber order = Ok s'
        ∧ ∀ a, a ∈ SuperSigners s'
               ↔ (∃ v, v ∈ nextSigners ∧ params.Address v = a
                       ∧ params.Super v = true)
                 ∨ (a ∈ SuperSigners s
                    ∧ ∃ v, v ∈ nextSigners ∧ params.Address v = a).
Proof.
  intros Ha Hb Hc Hd Horder Hinv.
  destruct (applyPallasOverride_sets s headerNumber order pallas nextSigners
              Ha Hb Hc Hd Horder) as (s' & Hrun & _ & HSS & _).
  exists s'. split; [done|]. intros a.
  rewrite HSS, <- elem_of_targetSuperSet, <- elem_of_targetSet.
  unfold superSubset in Hinv.
  destruct (decide (a ∈ targetSet nextSigners)); set_solver.
Qed.

Lemma applyPallasOverride_super_status_witness :
  isPallasActive Sample.before (uint64.sub (nextNumber 9) 1) = true
  ∧ uint64.rem (nextNumber 9) (params.Epoch (config Sample.before)) = Ok 0
  ∧ range_order_set (Signers Sample.before) [Sample.a1; Sample.a2]
  ∧ superSubset Sample.before
  ∧ ∃ s', applyPallasOverride Sample.before 9 [Sample.a1; Sample.a2] = Ok s'
          ∧ ∀ a, a ∈ SuperSigners s'
                 ↔ (∃ v, v ∈ [params.mkValidator Sample.a1 false;
                               params.mkValidator Sample.a3 true]
                         ∧ params.Address v = a ∧ params.Super v = true)
                   ∨ (a ∈ SuperSigners Sample.before
                      ∧ ∃ v, v ∈ [params.mkValidator Sample.a1 false;
                                   params.mkValidator Sample.a3 true]
                             ∧ params.Address v = a).
Proof.
  assert (Ha : isPallasActive Sample.before
                 (uint64.sub (nextNumber 9) 1) = true)
    by (vm_compute; reflexivity).
  assert (Hb : uint64.rem (nextNumber 9)
                 (params.Epoch (config Sample.before)) = Ok 0)
    by (vm_compute; reflexivity).
  assert (Horder : range_order_set (Signers Sample.before)
                     [Sample.a1; Sample.a2])
    by (unfold range_order_set; vm_compute; reflexivity).
  assert (Hinv : superSubset Sample.before)
    by (unfold superSubset; decide_by_compute).
  do 4 (split; [assumption|]).
  apply (applyPallasOverride_super_status Sample.before 9
           [Sample.a1; Sample.a2] Sample.schedule
           [params.mkValidator Sample.a1 false;
            params.mkValidator Sample.a3 true] Ha Hb);
    [reflexivity|vm_compute; reflexivity|exact Horder|exact Hinv].
Defined.

(** [applyPallasOverride] never touches the configuration, the block of the
    snapshot or the tallies: the votes on a candidate outlive an override
    that removes the candidate.  The recent signers are either untouched,
    with the whole snapshot, or emptied. *)
Theorem applyPallasOverride_frame (s s' : Snapshot) (headerNumber : N)
    (order : list common.Address) :
  applyPallasOverride s headerNumber order = Ok s' →
  config s' = config s ∧ Number s' = Number s ∧ Hash s' = Hash s
  ∧ SuperTally s' = SuperTally s
  ∧ (s' = s ∨ Recents s' = ∅).
Proof.
  intros Hrun.
  destruct (applyPallasOverride_paths s headerNumber)
    as [Hskip|[(_ & _ & Hpanic)|(pallas & next & Ha & Hb & Hc & Hd)]].
  - rewrite Hskip in Hrun. injection Hrun as <-. tauto.
  - by rewrite Hpanic in Hrun.
  - rewrite (applyPallasOverride_applies s headerNumber order pallas next)
      in Hrun by done.
    injection Hrun as <-.
    destruct (override_fields s order next)
      as (Hc1 & Hn1 & Hh1 & _ & _ & HT1 & HR1).
    tauto.
Qed.

Lemma applyPallasOverride_frame_witness :
  ∃ s', applyPallasOverride Sample.before 9 [Sample.a1; Sample.a2] = Ok s'
        ∧ config s' = config Sample.before
        ∧ Number s' = Number Sample.before
        ∧ Hash s' = Hash Sample.before
        ∧ SuperTally s' = SuperTally Sample.before
        ∧ (s' = Sample.before ∨ Recents s' = ∅).
Proof.
  eexists. split; [vm_compute; reflexivity|].
  apply (applyPallasOverride_frame Sample.before _ 9 [Sample.a1; Sample.a2]).
  vm_compute. reflexivity.
Defined.

(** Pallas stays active once it is: active at a block, it is active at
    every later block, and it is active only with a configured block that
    has been reached. *)
Theorem isPallasActive_monotone (s : Snapshot) (b b' : N) :
  isPallasActive s b = true →
  b ≤ b' →
  isPallasActive s b' = true
  ∧ ∃ pallas block,
      params.Pallas (config s) = Some pallas
      ∧ params.Block pallas = Some block
      ∧ Uint64 block ≤ b.
Proof.
  unfold isPallasActive. intros Hactive Hle.
  destruct (params.Pallas (config s)) as [pallas|]; [|done].
  destruct (params.Block pallas) as [block|] eqn:Hblock; [|done].
  apply N.leb_le in Hactive. split; [apply N.leb_le; lia|].
  exists pallas, block. split; [done|]. split; [done|]. exact Hactive.
Qed.

Lemma isPallasActive_monotone_witness :
  isPallasActive Sample.before 9 = true
  ∧ 9 ≤ 10
  ∧ isPallasActive Sample.before 10 = true
  ∧ ∃ pallas block,
      params.Pallas (config Sample.before) = Some pallas
      ∧ params.Block pallas = Some block
      ∧ Uint64 block ≤ 9.
Proof.
  assert (H1 : isPallasActive Sample.before 9 = true)
    by (vm_compute; reflexivity).
  assert (H2 : 9 ≤ 10) by lia.
  do 2 (split; [assumption|]).
  exact (isPallasActive_monotone Sample.before 9 10 H1 H2).
Defined.

(** ** The sorted super signers, slots and offsets *)

Lemma foldl_snoc (l acc : list N) :
  foldl (λ sigs sig, sigs ++ [sig]) acc l = acc ++ l.
Proof.
  revert acc. induction l as [|a l IH]; intros acc; simpl.
  - by rewrite app_nil_r.
  - by rewrite IH, <- app_assoc.
Qed.

(** [superSigners] returns the super signers, each once, in ascending
    order, whatever the order in which the map was ranged over. *)
Theorem superSigners_sorted (s : Snapshot) (order order' : list common.Address) :
  range_order_set (SuperSigners s) order →
  range_order_set (SuperSigners s) order' →
  Sorted N.le (superSigners s order)
  ∧ NoDup (superSigners s order)
  ∧ (∀ a, a ∈ superSigners s order ↔ isSuper s a = true)
  ∧ superSigners s order' = superSigners s order.
Proof.
  unfold range_order_set, superSigners. intros Horder Horder'.
  rewrite !foldl_snoc. simpl.
  assert (Hperm : merge_sort N.le order ≡ₚ elements (SuperSigners s))
    by (by rewrite merge_sort_Permutation).
  split; [apply (Sorted_merge_sort N.le)|].
  split; [rewrite Hperm; apply NoDup_elements|].
  split.
  - intros a. rewrite Hperm, elem_of_elements. unfold isSuper.
    by rewrite bool_decide_eq_true.
  - apply (Sorted_unique N.le); try apply (Sorted_merge_sort N.le).
    by rewrite !merge_sort_Permutation, Horder, Horder'.
Qed.

Lemma superSigners_sorted_witness :
  range_order_set (SuperSigners Sample.four) [Sample.a1; Sample.a2]
  ∧ range_order_set (SuperSigners Sample.four) [Sample.a2; Sample.a1]
  ∧ Sorted N.le (superSigners Sample.four [Sample.a1; Sample.a2])
  ∧ NoDup (superSigners Sample.four [Sample.a1; Sample.a2])
  ∧ (∀ a, a ∈ superSigners Sample.four [Sample.a1; Sample.a2]
          ↔ isSuper Sample.four a = true)
  ∧ superSigners Sample.four [Sample.a2; Sample.a1]
    = superSigners Sample.four [Sample.a1; Sample.a2].
Proof.
  assert (Hlist : elements (SuperSigners Sample.four)
                  = [Sample.a2; Sample.a1] ∨
                  elements (SuperSigners Sample.four)
                  = [Sample.a1; Sample.a2]).
  { vm_compute. tauto. }
  assert (H1 : range_order_set (SuperSigners Sample.four)
                 [Sample.a1; Sample.a2]).
  { unfold range_order_set. destruct Hlist as [->| ->];
      [apply Permutation_swap|reflexivity]. }
  assert (H2 : range_order_set (SuperSigners Sample.four)
                 [Sample.a2; Sample.a1]).
  { unfold range_order_set. destruct Hlist as [->| ->];
      [reflexivity|apply Permutation_swap]. }
  do 2 (split; [assumption|]).
  exact (superSigners_sorted Sample.four [Sample.a1; Sample.a2]
           [Sample.a2; Sample.a1] H1 H2).
Defined.

Lemma offset_found (s : Snapshot) (signer : common.Address) :
  signer ∈ Signers s →
  ∃ k, signers s !! k = Some signer ∧ offset s signer = int.len k.
Proof.
  intros Hin. apply elem_of_signers, list_elem_of_lookup_1 in Hin as [k Hk].
  exists k. split; [done|]. by apply offset_slot.
Qed.

(** [offset] is the inverse of indexing the sorted signers: it lies between
    0 and the signer count, it is below the count exactly for a signer, and
    the signer at index [k] is the one whose offset is [k]. *)
Theorem offset_index (s : Snapshot) (signer : common.Address) :
  (0 ≤ offset s signer ≤ int.len (length (signers s)))%Z
  ∧ (signer ∈ Signers s
     ↔ (offset s signer < int.len (length (signers s)))%Z)
  ∧ (∀ k, signers s !! k = Some signer
          ↔ signer ∈ Signers s ∧ offset s signer = int.len k).
Proof.
  unfold int.len.
  destruct (decide (signer ∈ Signers s)) as [Hin|Hout].
  - destruct (offset_found s signer Hin) as (k & Hk & Hoff).
    pose proof (lookup_lt_Some _ _ _ Hk) as Hlt. unfold int.len in Hoff.
    split; [lia|]. split; [split; [lia|done]|].
    intros k'. split.
    + intros Hk'. split; [done|]. by apply offset_slot.
    + intros [_ Hoff']. rewrite Hoff in Hoff'.
      by replace k' with k by lia.
  - pose proof (offset_not_signer s signer Hout) as Hoff.
    unfold int.len in Hoff.
    split; [lia|]. split; [split; [done|lia]|].
    intros k. split; [|tauto].
    intros Hk. exfalso. apply Hout, elem_of_signers.
    by eapply list_elem_of_lookup_2.
Qed.

(** [lastSlot] returns exactly for the slots below the signer count; every
    other slot panics on the index. *)
Theorem lastSlot_defined (s : Snapshot) (slot : N)
    (order : list (N * common.Address)) :
  ((∃ bn, lastSlot s slot order = Ok bn) ↔ slot < signerCount s)
  ∧ (signerCount s ≤ slot → lastSlot s slot order = Panic IndexOutOfRange).
Proof.
  rewrite signerCount_length.
  assert (Hpanic : N.of_nat (length (signers s)) ≤ slot →
                   lastSlot s slot order = Panic IndexOutOfRange)
    by apply lastSlot_out_of_range.
  split; [|done]. split.
  - intros [bn Hbn].
    destruct (decide (slot < N.of_nat (length (signers s)))); [done|].
    rewrite Hpanic in Hbn by lia. done.
  - intros Hlt. destruct (lastSlot_Ok s slot order Hlt) as (a & _ & ->).
    by eexists.
Qed.

(** The result 0 of [lastSlot] has two meanings.  A nonzero result is a
    block [Recents] records for the signer of the slot; the result is 0 when
    [Recents] records no block for that signer, and also when the blocks it
    records for that signer are block 0 alone. *)
Theorem lastSlot_zero (s : Snapshot) (slot : N) (signer : common.Address)
    (order : list (N * common.Address)) :
  signers s !! N.to_nat slot = Some signer →
  range_order (Recents s) order →
  (∀ bn, lastSlot s slot order = Ok bn → bn ≠ 0 →
         Recents s !! bn = Some signer)
  ∧ ((∀ bn, Recents s !! bn = Some signer → bn = 0) →
     lastSlot s slot order = Ok 0).
Proof.
  intros Hslot Horder. unfold lastSlot. rewrite Hslot.
  destruct (lastSlot_range_spec signer order) as [Hin|[Hzero Hno]].
  - apply (elem_of_range_order s order) in Hin; [|done]. split.
    + by intros bn [= <-] _.
    + intros Hall. f_equal. by apply Hall.
  - split.
    + intros bn [= <-] Hbn. done.
    + intros _. by rewrite Hzero.
Qed.

Lemma lastSlot_zero_witness :
  signers Sample.displaced !! N.to_nat 1 = Some Sample.a2
  ∧ range_order (Recents Sample.displaced) [(4, Sample.a2)]
  ∧ Recents Sample.displaced !! 4 = Some Sample.a2
  ∧ lastSlot Sample.displaced 1 [(4, Sample.a2)] = Ok 4.
Proof.
  assert (H1 : signers Sample.displaced !! N.to_nat 1 = Some Sample.a2)
    by (vm_compute; reflexivity).
  assert (H2 : range_order (Recents Sample.displaced) [(4, Sample.a2)])
    by (vm_compute; reflexivity).
  assert (H3 : lastSlot Sample.displaced 1 [(4, Sample.a2)] = Ok 4)
    by (vm_compute; reflexivity).
  do 2 (split; [assumption|]). split; [|assumption].
  destruct (lastSlot_zero Sample.displaced 1 Sample.a2 [(4, Sample.a2)]
              H1 H2) as [Hnonzero _].
  apply (Hnonzero 4 H3). lia.
Defined.

(** ** More on the schedule *)

Lemma offset_eq_slot (snap : Snapshot) (signer : common.Address) (k : N) :
  k < signerCount snap →
  uint64.of_int (offset snap signer) = k
  ↔ signers snap !! N.to_nat k = Some signer.
Proof.
  rewrite signerCount_length. intros Hk. split.
  - intros Hoff.
    destruct (decide (signer ∈ Signers snap)) as [Hin|Hout].
    + destruct (offset_found snap signer Hin) as (i & Hi & Hoffi).
      rewrite Hoffi, of_int_len in Hoff. subst k. by rewrite Nat2N.id.
    + rewrite (offset_not_signer snap signer Hout), of_int_len in Hoff. lia.
  - intros Hslot. rewrite (offset_slot snap signer _ Hslot), of_int_len.
    lia.
Qed.

Lemma computeDelay_Ok_nonempty (snap : Snapshot) (signer : common.Address)
    (number : N) (oP oS oR : list (N * common.Address)) (r : N * bool) :
  computeDelay snap signer number oP oS oR = Ok r → Signers snap ≠ ∅.
Proof.
  intros Hrun Hempty.
  unfold computeDelay in Hrun.
  by rewrite (signerCount_empty snap Hempty) in Hrun.
Qed.

Lemma secondary_caller (snap : Snapshot) (signer : common.Address)
    (number : N) :
  Signers snap ≠ ∅ →
  (secondarySlot snap number =? uint64.of_int (offset snap signer))
  = bool_decide (signers snap !! N.to_nat (secondarySlot snap number)
                 = Some signer).
Proof.
  intros Hne.
  pose proof (offset_eq_slot snap signer (secondarySlot snap number)
                (secondarySlot_lt snap number Hne)) as Hiff.
  destruct (N.eqb_spec (secondarySlot snap number)
              (uint64.of_int (offset snap signer))) as [Heq|Hneq].
  - rewrite bool_decide_eq_true_2; [done|]. by apply Hiff.
  - rewrite bool_decide_eq_false_2; [done|].
    intros Hslot. apply Hneq. symmetry. by apply Hiff.
Qed.

Lemma lastSlot_nonempty (snap : Snapshot) (slot bn : N)
    (order : list (N * common.Address)) :
  lastSlot snap slot order = Ok bn → Signers snap ≠ ∅.
Proof.
  intros Hrun Hempty. unfold lastSlot in Hrun.
  by rewrite (signerCount_empty snap Hempty) in Hrun.
Qed.

(** When [lastSlot] returns 0 for the primary and for the secondary slot,
    the signer of the secondary slot gets (1, false) and every other caller
    (2, true): nobody gets delay 0. *)
Theorem computeDelay_unblocked (snap : Snapshot) (signer : common.Address)
    (number : N) (oPrimary oSecondary oReplaced : list (N * common.Address)) :
  lastSlot snap (primarySlot snap number) oPrimary = Ok 0 →
  lastSlot snap (secondarySlot snap number) oSecondary = Ok 0 →
  computeDelay snap signer number oPrimary oSecondary oReplaced
  = Ok (if bool_decide (signers snap
                          !! N.to_nat (secondarySlot snap number)
                        = Some signer)
        then (1, false) else (2, true)).
Proof.
  intros Hprimary Hsecondary.
  pose proof (lastSlot_nonempty _ _ _ _ Hprimary) as Hne.
  destruct (computeDelay_table snap signer number oPrimary oSecondary
              oReplaced Hne) as (p & q & r & Hp & Hq & _ & ->).
  unfold lastSlot in Hprimary, Hsecondary.
  rewrite Hp in Hprimary. rewrite Hq in Hsecondary.
  injection Hprimary as ->. injection Hsecondary as ->.
  f_equal. unfold delayTable. simpl.
  rewrite (secondary_caller snap signer number Hne). by case_bool_decide.
Qed.

Lemma computeDelay_unblocked_witness :
  lastSlot Sample.four (primarySlot Sample.four 101) [] = Ok 0
  ∧ lastSlot Sample.four (secondarySlot Sample.four 101) [] = Ok 0
  ∧ computeDelay Sample.four Sample.a3 101 [] [] []
    = Ok (if bool_decide (signers Sample.four
                            !! N.to_nat (secondarySlot Sample.four 101)
                          = Some Sample.a3)
          then (1, false) else (2, true)).
Proof.
  assert (H1 : lastSlot Sample.four (primarySlot Sample.four 101) [] = Ok 0)
    by (vm_compute; reflexivity).
  assert (H2 : lastSlot Sample.four (secondarySlot Sample.four 101) []
               = Ok 0) by (vm_compute; reflexivity).
  do 2 (split; [assumption|]).
  exact (computeDelay_unblocked Sample.four Sample.a3 101 [] [] [] H1 H2).
Defined.

Lemma computeDelay_non_signer_aux (snap : Snapshot) (c : common.Address)
    (number : N) (oP oS oR : list (N * common.Address)) :
  Signers snap ≠ ∅ → c ∉ Signers snap →
  computeDelay snap c number oP oS oR = Ok (2, true).
Proof.
  intros Hne Hout.
  destruct (computeDelay_table snap c number oP oS oR Hne)
    as (p & q & r & _ & _ & _ & ->).
  f_equal. apply delayTable_outsider.
  - by apply signerCount_nonzero.
  - by rewrite (offset_not_signer snap c Hout).
  - by apply secondarySlot_lt.
Qed.

Lemma delayTable_unique (count me1 me2 secondary pLast sLast rLast delay : N) :
  delayTable count me1 secondary pLast sLast rLast = (delay, false) →
  delayTable count me2 secondary pLast sLast rLast = (delay, false) →
  me1 = me2.
Proof.
  unfold delayTable.
  repeat match goal with
         | |- context [?x =? ?y] => destruct (N.eqb_spec x y)
         end; simpl; intros H1 H2; congruence.
Qed.

(** For one block, one snapshot and the same iteration orders, two callers
    that both get the same delay without the wiggle are the same signer:
    delay 0 and delay 1 each go to at most one signer. *)
Theorem computeDelay_tier_unique (snap : Snapshot) (a b : common.Address)
    (number delay : N) (oPrimary oSecondary oReplaced : list (N * common.Address)) :
  computeDelay snap a number oPrimary oSecondary oReplaced
  = Ok (delay, false) →
  computeDelay snap b number oPrimary oSecondary oReplaced
  = Ok (delay, false) →
  a = b.
Proof.
  intros Ha Hb.
  pose proof (computeDelay_Ok_nonempty _ _ _ _ _ _ _ Ha) as Hne.
  assert (Hsigner : ∀ c,
    computeDelay snap c number oPrimary oSecondary oReplaced
    = Ok (delay, false) → c ∈ Signers snap).
  { intros c Hc. destruct (decide (c ∈ Signers snap)) as [|Hout]; [done|].
    rewrite (computeDelay_non_signer_aux snap c number oPrimary oSecondary
               oReplaced Hne Hout) in Hc.
    done. }
  destruct (offset_found snap a (Hsigner a Ha)) as (i & Hi & Hoffa).
  destruct (offset_found snap b (Hsigner b Hb)) as (j & Hj & Hoffb).
  destruct (computeDelay_table snap a number oPrimary oSecondary oReplaced
              Hne) as (p & q & r & Hp & Hq & Hr & Hta).
  destruct (computeDelay_table snap b number oPrimary oSecondary oReplaced
              Hne) as (p' & q' & r' & Hp' & Hq' & Hr' & Htb).
  rewrite Hp in Hp'. injection Hp' as <-.
  rewrite Hq in Hq'. injection Hq' as <-.
  rewrite Hr in Hr'. injection Hr' as <-.
  rewrite Ha in Hta. rewrite Hb in Htb.
  injection Hta as Hta. injection Htb as Htb.
  symmetry in Hta, Htb.
  pose proof (delayTable_unique _ _ _ _ _ _ _ _ Hta Htb) as Hsame.
  rewrite Hoffa, Hoffb, !of_int_len in Hsame.
  assert (i = j) as -> by lia.
  rewrite Hi in Hj. by injection Hj.
Qed.

Lemma computeDelay_tier_unique_witness :
  computeDelay Sample.displaced Sample.a1 5
    [(4, Sample.a2)] [(4, Sample.a2)] [(4, Sample.a2)] = Ok (0, false)
  ∧ Sample.a1 = Sample.a1.
Proof.
  assert (H1 : computeDelay Sample.displaced Sample.a1 5
                 [(4, Sample.a2)] [(4, Sample.a2)] [(4, Sample.a2)]
               = Ok (0, false)) by (vm_compute; reflexivity).
  split; [assumption|].
  exact (computeDelay_tier_unique Sample.displaced Sample.a1 Sample.a1 5 0
           [(4, Sample.a2)] [(4, Sample.a2)] [(4, Sample.a2)] H1 H1).
Defined.

(** Right after an override that applied a list with at least one address,
    [computeDelay] on the new snapshot returns for every caller and block:
    the recent signers are empty, so the signer of the secondary slot of the
    new signer set gets (1, false) and every other caller (2, true). *)
Theorem computeDelay_after_override (s : Snapshot) (headerNumber : N)
    (order : list common.Address) (pallas : params.PallasConfig)
    (nextSigners : list params.Validator) :
  isPallasActive s (uint64.sub (nextNumber headerNumber) 1) = true →
  uint64.rem (nextNumber headerNumber) (params.Epoch (config s)) = Ok 0 →
  params.Pallas (config s) = Some pallas →
  params.Validators pallas !! nextNumber headerNumber = Some nextSigners →
  range_order_set (Signers s) order →
  nextSigners ≠ [] →
  ∃ s', applyPallasOverride s headerNumber order = Ok s'
        ∧ ∀ signer number oPrimary oSecondary oReplaced,
            range_order (Recents s') oPrimary →
            range_order (Recents s') oSecondary →
            range_order (Recents s') oReplaced →
            computeDelay s' signer number oPrimary oSecondary oReplaced
            = Ok (if bool_decide (signers s'
                                    !! N.to_nat (secondarySlot s' number)
                                  = Some signer)
                  then (1, false) else (2, true)).
Proof.
  intros Ha Hb Hc Hd Horder Hlist.
  destruct (applyPallasOverride_sets s headerNumber order pallas nextSigners
              Ha Hb Hc Hd Horder) as (s' & Hrun & HS & _ & HR & _).
  exists s'. split; [done|].
  assert (Hne : Signers s' ≠ ∅).
  { rewrite HS. destruct nextSigners as [|v l]; [done|].
    unfold targetSet. simpl. set_solver. }
  intros signer number oP oS oR HoP HoS HoR.
  unfold range_order in HoP, HoS. rewrite HR, map_to_list_empty in HoP, HoS.
  apply Permutation_nil_r in HoP, HoS. subst oP oS.
  destruct (computeDelay_table s' signer number [] [] oR Hne)
    as (p & q & r & _ & _ & _ & ->).
  f_equal. unfold delayTable. simpl.
  rewrite (secondary_caller s' signer number Hne). by case_bool_decide.
Qed.

Lemma computeDelay_after_override_witness :
  isPallasActive Sample.before (uint64.sub (nextNumber 9) 1) = true
  ∧ uint64.rem (nextNumber 9) (params.Epoch (config Sample.before)) = Ok 0
  ∧ range_order_set (Signers Sample.before) [Sample.a1; Sample.a2]
  ∧ ∃ s', applyPallasOverride Sample.before 9 [Sample.a1; Sample.a2] = Ok s'
          ∧ ∀ signer number oPrimary oSecondary oReplaced,
              range_order (Recents s') oPrimary →
              range_order (Recents s') oSecondary →
              range_order (Recents s') oReplaced →
              computeDelay s' signer number oPrimary oSecondary oReplaced
              = Ok (if bool_decide (signers s'
                                      !! N.to_nat (secondarySlot s' number)
                                    = Some signer)
                    then (1, false) else (2, true)).
Proof.
  assert (Ha : isPallasActive Sample.before
                 (uint64.sub (nextNumber 9) 1) = true)
    by (vm_compute; reflexivity).
  assert (Hb : uint64.rem (nextNumber 9)
                 (params.Epoch (config Sample.before)) = Ok 0)
    by (vm_compute; reflexivity).
  assert (Horder : range_order_set (Signers Sample.before)
                     [Sample.a1; Sample.a2])
    by (unfold range_order_set; vm_compute; reflexivity).
  do 3 (split; [assumption|]).
  apply (computeDelay_after_override Sample.before 9 [Sample.a1; Sample.a2]
           Sample.schedule
           [params.mkValidator Sample.a1 false;
            params.mkValidator Sample.a3 true] Ha Hb);
    [reflexivity|vm_compute; reflexivity|exact Horder|discriminate].
Defined.

(** ** The secondary slot *)

Lemma half_bounds (c : N) : 2 ≤ c → 1 ≤ c / 2 ∧ 2 * (c / 2) ≤ c.
Proof.
  intros Hc. pose proof (N.Div0.div_mod c 2) as Hdiv.
  pose proof (N.mod_lt c 2 ltac:(lia)).
  split; [lia|]. apply N.Div0.mul_div_le.
Qed.

Lemma mod_once (x c : N) : c ≤ x → x < 2 * c → x mod c = x - c.
Proof.
  intros Hge Hlt. replace x with (x - c + 1 * c) at 1 by lia.
  rewrite N.Div0.mod_add. apply N.mod_small. lia.
Qed.

(** The sum [p - 1 + h] computed in [uint64], for [p] and [h] below
    [2^63] and [h] at least 1. *)
Lemma uint64_pred_add (p h : N) :
  p < 2 ^ 63 → 1 ≤ h → h < 2 ^ 63 →
  uint64.add (uint64.sub p 1) h = p + h - 1.
Proof.
  intros Hp Hh1 Hh. unfold uint64.add, uint64.sub.
  change (uint64.wrap 1) with 1. unfold uint64.wrap, uint64.modulus.
  destruct (decide (p = 0)) as [->|Hpos].
  - rewrite (N.mod_small (0 + (2 ^ 64 - 1))) by lia.
    rewrite mod_once by lia. lia.
  - rewrite (mod_once (p + (2 ^ 64 - 1))) by lia.
    rewrite N.mod_small by lia. lia.
Qed.

(** The [uint64] subtraction in [number%signerCount - 1 + signerCount/2]
    may wrap below 0, but the sum wraps back: with two signers or more (and
    a signer count that, as a Go length, fits an [int]) the secondary slot
    is [(primary + signerCount/2 - 1) mod signerCount] in exact
    arithmetic. *)
Theorem secondarySlot_exact (snap : Snapshot) (number : N) :
  2 ≤ signerCount snap →
  (Z.of_N (signerCount snap) ≤ int.max)%Z →
  secondarySlot snap number
  = (primarySlot snap number + signerCount snap / 2 - 1)
    mod signerCount snap.
Proof.
  intros Htwo Hfit. unfold secondarySlot, primarySlot.
  assert (Hc : signerCount snap < 2 ^ 63) by (unfold int.max in Hfit; lia).
  pose proof (N.mod_lt number (signerCount snap) ltac:(lia)) as Hp.
  destruct (half_bounds (signerCount snap) Htwo) as [Hhalf1 Hhalf2].
  by rewrite uint64_pred_add by lia.
Qed.

Lemma secondarySlot_exact_witness :
  2 ≤ signerCount Sample.four
  ∧ (Z.of_N (signerCount Sample.four) ≤ int.max)%Z
  ∧ secondarySlot Sample.four 100
    = (primarySlot Sample.four 100 + signerCount Sample.four / 2 - 1)
      mod signerCount Sample.four.
Proof.
  assert (H1 : 2 ≤ signerCount Sample.four) by (vm_compute; discriminate).
  assert (H2 : (Z.of_N (signerCount Sample.four) ≤ int.max)%Z)
    by (vm_compute; discriminate).
  do 2 (split; [assumption|]).
  exact (secondarySlot_exact Sample.four 100 H1 H2).
Defined.

(** With one, two or three signers the secondary slot is the primary slot
    itself; from four signers on the two slots differ. *)
Theorem secondarySlot_primarySlot (snap : Snapshot) (number : N) :
  1 ≤ signerCount snap →
  (Z.of_N (signerCount snap) ≤ int.max)%Z →
  (signerCount snap ≤ 3 → secondarySlot snap number = primarySlot snap number)
  ∧ (4 ≤ signerCount snap →
     secondarySlot snap number ≠ primarySlot snap number).
Proof.
  intros Hone Hfit.
  assert (Hc : signerCount snap < 2 ^ 63) by (unfold int.max in Hfit; lia).
  pose proof (N.mod_lt number (signerCount snap) ltac:(lia)) as Hp.
  destruct (decide (signerCount snap = 1)) as [H1|Hmore].
  { split; [|lia]. intros _. unfold secondarySlot, primarySlot.
    rewrite H1. by rewrite !N.mod_1_r. }
  unfold secondarySlot, primarySlot in *.
  set (c := signerCount snap) in *. set (p := number mod c) in *.
  destruct (half_bounds c ltac:(lia)) as [Hhalf1 Hhalf2].
  rewrite uint64_pred_add by lia.
  pose proof (N.Div0.div_mod c 2) as Hdiv. pose proof (N.mod_lt c 2 ltac:(lia)) as Hmod.
  set (h := c / 2) in *.
  split.
  - intros Hsmall. assert (h = 1) as -> by lia.
    replace (p + 1 - 1) with p by lia. by apply N.mod_small.
  - intros Hlarge. assert (2 ≤ h) by lia.
    destruct (decide (p + h - 1 < c)) as [Hin|Hout].
    + rewrite N.mod_small by done. lia.
    + rewrite mod_once by lia. lia.
Qed.

Lemma secondarySlot_primarySlot_witness :
  1 ≤ signerCount Sample.four
  ∧ (Z.of_N (signerCount Sample.four) ≤ int.max)%Z
  ∧ 4 ≤ signerCount Sample.four
  ∧ secondarySlot Sample.four 100 ≠ primarySlot Sample.four 100.
Proof.
  assert (H1 : 1 ≤ signerCount Sample.four) by (vm_compute; discriminate).
  assert (H2 : (Z.of_N (signerCount Sample.four) ≤ int.max)%Z)
    by (vm_compute; discriminate).
  assert (H3 : 4 ≤ signerCount Sample.four) by (vm_compute; discriminate).
  do 3 (split; [assumption|]).
  destruct (secondarySlot_primarySlot Sample.four 100 H1 H2) as [_ Hdiff].
  exact (Hdiff H3).
Defined.

(** ** Votes and the registry *)

(** At most one direction is a valid vote on a candidate; in a snapshot
    that keeps the super signers among the signers, the candidates with a
    valid vote are exactly the signers. *)
Theorem validVoteSuper_exclusive (s : Snapshot) (c : common.Address) :
  (validVoteSuper s c true = true → validVoteSuper s c false = false)
  ∧ (superSubset s →
     (c ∈ Signers s ↔ ∃ d, validVoteSuper s c d = true)).
Proof.
  split.
  - rewrite validVoteSuper_promote. intros [_ Hnot].
    apply not_true_is_false. by rewrite validVoteSuper_demote.
  - intros Hinv. unfold superSubset in Hinv. split.
    + intros Hin. destruct (decide (c ∈ SuperSigners s)) as [Hsuper|Hnot].
      * exists false. by apply validVoteSuper_demote.
      * exists true. by apply validVoteSuper_promote.
    + intros [[|] Hvalid].
      * by apply validVoteSuper_promote in Hvalid as [Hin _].
      * apply validVoteSuper_demote in Hvalid. set_solver.
Qed.

(** A candidate that an applied override removes can no longer be voted
    on, in either direction, but the tally it had is still there and
    [uncastSuper] treats it as before the override. *)
Theorem applyPallasOverride_removed_candidate (s : Snapshot) (headerNumber : N)
    (order : list common.Address) (pallas : params.PallasConfig)
    (nextSigners : list params.Validator) (c : common.Address) :
  isPallasActive s (uint64.sub (nextNumber headerNumber) 1) = true →
  uint64.rem (nextNumber headerNumber) (params.Epoch (config s)) = Ok 0 →
  params.Pallas (config s) = Some pallas →
  params.Validators pallas !! nextNumber headerNumber = Some nextSigners →
  range_order_set (Signers s) order →
  superSubset s →
  (∀ v, v ∈ nextSigners → params.Address v ≠ c) →
  ∃ s', applyPallasOverride s headerNumber order = Ok s'
        ∧ (∀ d, castSuper s' c d = (false, s'))
        ∧ SuperTally s' !! c = SuperTally s !! c
        ∧ ∀ d, (uncastSuper s' c d).1 = (uncastSuper s c d).1.
Proof.
  intros Ha Hb Hc Hd Horder Hinv Habsent.
  destruct (applyPallasOverride_sets s headerNumber order pallas nextSigners
              Ha Hb Hc Hd Horder) as (s' & Hrun & HS & HSS & _ & HT).
  exists s'. split; [done|].
  assert (HcT : c ∉ targetSet nextSigners).
  { rewrite elem_of_targetSet. intros (v & Hv & Hvc). by apply (Habsent v). }
  assert (HcS : c ∉ Signers s') by (by rewrite HS).
  assert (HcSS : c ∉ SuperSigners s').
  { rewrite HSS. pose proof (targetSuperSet_subseteq nextSigners).
    unfold superSubset in Hinv. set_solver. }
  split.
  - intros d. unfold castSuper, validVoteSuper.
    rewrite (bool_decide_eq_false_2 _ HcS), (bool_decide_eq_false_2 _ HcSS).
    by destruct d.
  - split; [by rewrite HT|].
    intros d. unfold uncastSuper. rewrite HT.
    destruct (SuperTally s !! c) as [t|]; [|done].
    destruct (negb _); [done|]. by destruct (_ <? _)%Z.
Qed.

Lemma applyPallasOverride_removed_candidate_witness :
  isPallasActive Sample.before (uint64.sub (nextNumber 9) 1) = true
  ∧ uint64.rem (nextNumber 9) (params.Epoch (config Sample.before)) = Ok 0
  ∧ range_order_set (Signers Sample.before) [Sample.a1; Sample.a2]
  ∧ superSubset Sample.before
  ∧ ∃ s', applyPallasOverride Sample.before 9 [Sample.a1; Sample.a2] = Ok s'
          ∧ (∀ d, castSuper s' Sample.a2 d = (false, s'))
          ∧ SuperTally s' !! Sample.a2 = SuperTally Sample.before !! Sample.a2
          ∧ ∀ d, (uncastSuper s' Sample.a2 d).1
                 = (uncastSuper Sample.before Sample.a2 d).1.
Proof.
  assert (Ha : isPallasActive Sample.before
                 (uint64.sub (nextNumber 9) 1) = true)
    by (vm_compute; reflexivity).
  assert (Hb : uint64.rem (nextNumber 9)
                 (params.Epoch (config Sample.before)) = Ok 0)
    by (vm_compute; reflexivity).
  assert (Horder : range_order_set (Signers Sample.before)
                     [Sample.a1; Sample.a2])
    by (unfold range_order_set; vm_compute; reflexivity).
  assert (Hinv : superSubset Sample.before)
    by (unfold superSubset; decide_by_compute).
  do 4 (split; [assumption|]).
  apply (applyPallasOverride_removed_candidate Sample.before 9
           [Sample.a1; Sample.a2] Sample.schedule
           [params.mkValidator Sample.a1 false;
            params.mkValidator Sample.a3 true] Sample.a2 Ha Hb);
    [reflexivity|vm_compute; reflexivity|exact Horder|exact Hinv|].
  intros v Hv.
  apply elem_of_cons in Hv as [->|Hv]; [vm_compute; discriminate|].
  apply elem_of_cons in Hv as [->|Hv]; [vm_compute; discriminate|].
  by apply not_elem_of_nil in Hv.
Defined.
